(** * AggMetric: the in-memory ring of compressed chunks of one metric

    A shallow embedding of [nsq_metrics_tank/aggmetric.go].  Every [uint32]
    of the Go code is a [Z] whose arithmetic is wrapped modulo [2^32] where
    the Go code can overflow; a slice is a list read and written by index
    with the bound checks of the Go runtime written out; a call that can
    panic returns in the [go] monad.  The mutex is not modelled: every
    operation runs alone under the lock of its entity.  The [fmt.Println]
    diagnostics of [Add] write to standard output only and are left out. *)

From Stdlib Require Import ZArith Lia String Ascii DecimalString Floats.PrimFloat.
From stdpp Require Import base list.
From Equations Require Import Equations.

Local Open Scope Z_scope.

(** ** 32-bit unsigned arithmetic *)

Definition u32_modulus : Z := 2 ^ 32.

Definition wrap32 (x : Z) : Z := x mod u32_modulus.

Definition is_u32 (x : Z) : Prop := 0 <= x < u32_modulus.

(** ** Panics of the Go runtime and of the code *)

Inductive fault : Type :=
| ExplicitPanic (msg : string)
| DivideByZero
| IndexOutOfRange
| SliceBoundsOutOfRange
| NilDereference.

Inductive go (A : Type) : Type :=
| Ok (x : A)
| Fault (f : fault).

Arguments Ok {A} x.
Arguments Fault {A} f.

Definition go_bind {A B : Type} (m : go A) (k : A -> go B) : go B :=
  match m with
  | Ok x => k x
  | Fault f => Fault f
  end.

#[export] Instance go_ret : MRet go := fun A x => Ok x.
#[export] Instance go_mbind : MBind go := fun A B k m => go_bind m k.

(** [x / y] and [x % y] on [uint32]: the runtime panics on a zero divisor. *)
Definition udiv (x y : Z) : go Z :=
  if y =? 0 then Fault DivideByZero else Ok (x / y).

Definition umod (x y : Z) : go Z :=
  if y =? 0 then Fault DivideByZero else Ok (x mod y).

(** ** The sequence codec *)

(** Modelled from the spec: the sequence codec [tsz.Series] of the package
    github.com/dgryski/go-tsz, which is no part of this repository.  It is
    an append-only sequence of (timestamp, value) pairs opened at an aligned
    start; [Finish] seals it, after which no further push is readable; an
    iterator is a snapshot of the readable pairs, in push order. *)
Record Series : Type := mkSeries {
  T0 : Z;
  points : list (Z * float);
  finished : bool
}.

Definition New (t0 : Z) : Series :=
  {| T0 := t0; points := []; finished := false |}.

Definition Push (s : Series) (t : Z) (v : float) : Series :=
  if finished s then s
  else {| T0 := T0 s; points := points s ++ [(t, v)]; finished := false |}.

Definition Finish (s : Series) : Series :=
  {| T0 := T0 s; points := points s; finished := true |}.

Record Iter : Type := mkIter {
  iterT0 : Z;
  iterPoints : list (Z * float)
}.

Definition SeriesIter (s : Series) : Iter :=
  {| iterT0 := T0 s; iterPoints := points s |}.

(** ** The entity store *)

(** An aggregator is known by its handle only; what it does with a signal
    is outside this file. *)
Definition Aggregator : Type := Z.

(** One call [agg.Signal(a, ts)]: the aggregator, the key of the entity
    [a] and the timestamp. *)
Record SignalCall : Type := mkSignal {
  sigAgg : Aggregator;
  sigOwner : string;
  sigTs : Z
}.

Record AggMetric : Type := mkAggMetric {
  key : string;
  lastTs : Z;
  firstStart : Z;
  lastStart : Z;
  numChunks : Z;
  chunkSpan : Z;
  chunks : list (option Series);
  aggregators : list Aggregator
}.

Definition NewAggMetric (k : string) : AggMetric :=
  let n := 5 in
  {| key := k;
     lastTs := 0;
     firstStart := 0;
     lastStart := 0;
     numChunks := n;
     chunkSpan := 60 * 2;
     chunks := replicate (Z.to_nat n) None;
     aggregators := [] |}.

(** Field updates of the struct. *)
Definition set_firstStart (x : Z) (a : AggMetric) : AggMetric :=
  mkAggMetric (key a) (lastTs a) x (lastStart a) (numChunks a) (chunkSpan a)
    (chunks a) (aggregators a).

Definition set_lastStart (x : Z) (a : AggMetric) : AggMetric :=
  mkAggMetric (key a) (lastTs a) (firstStart a) x (numChunks a) (chunkSpan a)
    (chunks a) (aggregators a).

Definition set_chunks (cs : list (option Series)) (a : AggMetric) : AggMetric :=
  mkAggMetric (key a) (lastTs a) (firstStart a) (lastStart a) (numChunks a)
    (chunkSpan a) cs (aggregators a).

Definition set_aggregators (gs : list Aggregator) (a : AggMetric) : AggMetric :=
  mkAggMetric (key a) (lastTs a) (firstStart a) (lastStart a) (numChunks a)
    (chunkSpan a) (chunks a) gs.

(** Modelled from the spec: [Subscribe(aggregator)], which is not in the
    source file; the aggregator is appended to the signal list, no dedup. *)
Definition Subscribe (a : AggMetric) (g : Aggregator) : AggMetric :=
  set_aggregators (aggregators a ++ [g]) a.

(** ** Slices of chunk pointers *)

(** [cs[i]] read: the index is an unsigned integer. *)
Definition index_chunk (cs : list (option Series)) (i : Z) : go (option Series) :=
  match cs !! Z.to_nat i with
  | Some c => Ok c
  | None => Fault IndexOutOfRange
  end.

(** [cs[i] = c]. *)
Definition store_chunk (cs : list (option Series)) (i : Z) (c : option Series)
  : go (list (option Series)) :=
  if decide (Z.to_nat i < length cs)%nat
  then Ok (<[Z.to_nat i := c]> cs)
  else Fault IndexOutOfRange.

(** A method call through a chunk pointer panics on nil. *)
Definition deref (c : option Series) : go Series :=
  match c with
  | Some s => Ok s
  | None => Fault NilDereference
  end.

(** [cs[lo:hi]]: the runtime wants [lo <= hi <= cap(cs)]. *)
Definition slice_chunks (cs : list (option Series)) (lo hi : Z)
  : go (list (option Series)) :=
  if (lo <=? hi) && (hi <=? Z.of_nat (length cs))
  then Ok (take (Z.to_nat (hi - lo)) (drop (Z.to_nat lo) cs))
  else Fault SliceBoundsOutOfRange.

(** [n] rounds of [data = append(data, cs[i]); i++]. *)
Fixpoint appendChunks (cs : list (option Series)) (i : Z) (n : nat)
    (data : list (option Series)) : go (list (option Series)) :=
  match n with
  | O => Ok data
  | S n' => c ← index_chunk cs i; appendChunks cs (i + 1) n' (data ++ [c])
  end.

(** The last loop of [get]: one iterator for every chunk that is not nil. *)
Fixpoint chunkIters (data : list (option Series)) : list Iter :=
  match data with
  | [] => []
  | Some chunk :: rest => SeriesIter chunk :: chunkIters rest
  | None :: rest => chunkIters rest
  end.

(** ** Alignment and slots *)

(** [ts - (ts % a.chunkSpan)]. *)
Definition alignedStart (a : AggMetric) (ts : Z) : go Z :=
  m ← umod ts (chunkSpan a); Ok (wrap32 (ts - m)).

(** [((start - a.firstStart) / a.chunkSpan) % a.numChunks], the expression
    that [Add] and [get] repeat for every slot they touch. *)
Definition slotOf (a : AggMetric) (start : Z) : go Z :=
  q ← udiv (wrap32 (start - firstStart a)) (chunkSpan a);
  umod q (numChunks a).

(** ** Reads *)

Definition get (a : AggMetric) (firstStart_ lastStart_ : Z) : go (list Iter) :=
  first ← slotOf a firstStart_;
  last ← slotOf a lastStart_;
  data ← (if first <=? last
          then slice_chunks (chunks a) first (wrap32 (last + 1))
          else
            (* the values at the end of the slice, then those at its start;
               [last < numChunks], so [i <= last] ends after [last + 1] rounds *)
            d ← appendChunks (chunks a) first (Z.to_nat (numChunks a - first)) [];
            appendChunks (chunks a) 0 (Z.to_nat (last + 1)) d);
  Ok (chunkIters data).

(** [a.lastStart - a.numChunks*a.chunkSpan] in [uint32]. *)
Definition oldestStart (a : AggMetric) : Z :=
  wrap32 (lastStart a - wrap32 (numChunks a * chunkSpan a)).

(** The window that [GetUnsafe] hands to [get] (its lines between the lock
    and the return); the locals [firstStart] and [lastStart] of the Go code
    carry a trailing underscore here, to keep them apart from the fields. *)
Definition unsafeWindow (a : AggMetric) (from to : Z) : go (Z * Z) :=
  firstStart_ ← alignedStart a from;
  lastStart_ ← alignedStart a (wrap32 (to - 1));
  let firstStart_ :=
    if firstStart_ <? oldestStart a then oldestStart a else firstStart_ in
  let lastStart_ :=
    if lastStart a <? lastStart_ then lastStart a else lastStart_ in
  Ok (firstStart_, lastStart_).

(** The result pair of Go: the iterators and the error ([None] is nil). *)
Definition GetUnsafe (a : AggMetric) (from to : Z) : go (list Iter * option string) :=
  if to <=? from
  then Ok ([], Some "invalid request. to must > from"%string)
  else
    w ← unsafeWindow a from to;
    its ← get a w.1 w.2;
    Ok (its, None).

Definition GetSafe (a : AggMetric) (from to : Z) : go (list Iter) :=
  if to <=? from
  then Fault (ExplicitPanic "invalid request. to must > from")
  else
    firstStart_ ← alignedStart a from;
    lastStart_ ← alignedStart a (wrap32 (to - 1));
    if firstStart_ <? oldestStart a
    then Fault (ExplicitPanic "requested a firstStart that is too old")
    else if lastStart a <? lastStart_
    then Fault (ExplicitPanic "requested a lastStart that doesn't exist yet")
    else get a firstStart_ lastStart_.

(** ** Ingestion *)

(** The calls [agg.Signal(a, ts)] of the loop, in the order they are made. *)
Definition signalAggregators (a : AggMetric) (ts : Z) : list SignalCall :=
  map (fun agg => mkSignal agg (key a) ts) (aggregators a).

(** [Add] returns the entity after the call and the signals it sent. *)
Definition Add (a : AggMetric) (ts : Z) (val : float)
  : go (AggMetric * list SignalCall) :=
  if ts <=? lastTs a then Ok (a, [])
  else
    start ← alignedStart a ts;
    if firstStart a =? 0 then
      (* if we're adding first point ever.. *)
      let a := set_lastStart start (set_firstStart start a) in
      let series := Push (New start) ts val in
      cs ← store_chunk (chunks a) 0 (Some series);
      let a := set_chunks cs a in
      Ok (a, signalAggregators a ts)
    else
      a ← (if start =? lastStart a then
             (* last prior data was in same chunk as new point *)
             index ← slotOf a start;
             c ← index_chunk (chunks a) index;
             s ← deref c;
             cs ← store_chunk (chunks a) index (Some (Push s ts val));
             Ok (set_chunks cs a)
           else
             (* finish last chunk *)
             lastIndex ← slotOf a (lastStart a);
             c ← index_chunk (chunks a) lastIndex;
             s ← deref c;
             cs ← store_chunk (chunks a) lastIndex (Some (Finish s));
             let a := set_chunks cs a in
             (* create new chunk *)
             let series := Push (New start) ts val in
             newIndex ← slotOf a start;
             cs ← store_chunk (chunks a) newIndex (Some series);
             Ok (set_chunks cs a));
      Ok (a, signalAggregators a ts).

(** A run of [Add] calls, one after the other, with all the signals sent. *)
Fixpoint AddAll (a : AggMetric) (samples : list (Z * float))
  : go (AggMetric * list SignalCall) :=
  match samples with
  | [] => Ok (a, [])
  | (ts, val) :: rest =>
      r ← Add a ts val;
      r' ← AddAll r.1 rest;
      Ok (r'.1, r.2 ++ r'.2)
  end.

(** ** What the spec says of slot selection *)

(** The store as its constructor shapes it: positive span and capacity,
    and as many slots as the capacity says. *)
Definition wf (a : AggMetric) : Prop :=
  0 < chunkSpan a /\ 0 < numChunks a < u32_modulus /\
  Z.of_nat (length (chunks a)) = numChunks a.

(** [((s - firstStart) / chunkSpan) mod numChunks], the subtraction being
    the unsigned one of the timestamps. *)
Definition slotIndex (a : AggMetric) (s : Z) : Z :=
  (wrap32 (s - firstStart a) / chunkSpan a) mod numChunks a.

(** The chunk of a slot, if the slot was ever written. *)
Definition slotChunk (cs : list (option Series)) (i : Z) : option Series :=
  cs !! Z.to_nat i ≫= id.

(** The candidate slots of a read: [firstSlot..lastSlot], or, on
    wraparound, [firstSlot..numChunks-1] followed by [0..lastSlot]. *)
Definition candidateSlots (a : AggMetric) (firstRequestedStart lastRequestedStart : Z)
  : list Z :=
  let firstSlot := slotIndex a firstRequestedStart in
  let lastSlot := slotIndex a lastRequestedStart in
  if lastSlot >=? firstSlot
  then seqZ firstSlot (lastSlot - firstSlot + 1)
  else seqZ firstSlot (numChunks a - firstSlot) ++ seqZ 0 (lastSlot + 1).

(** One iterator per candidate slot that is not empty, in candidate order. *)
Definition Select (a : AggMetric) (firstRequestedStart lastRequestedStart : Z)
  : list Iter :=
  omap (fun i => SeriesIter <$> slotChunk (chunks a) i)
       (candidateSlots a firstRequestedStart lastRequestedStart).

(** The slot of an aligned start as the spec words it, over the integers:
    [((s - firstStart) / chunkSpan) mod numChunks], with the plain
    subtraction, the quotient rounded down and the remainder in
    [0 .. numChunks-1]. *)
Definition claimedSlot (a : AggMetric) (s : Z) : Z :=
  ((s - firstStart a) / chunkSpan a) mod numChunks a.

(** The candidate slots between a first and a last slot of a ring of [n]
    slots: [firstSlot..lastSlot], or [firstSlot..n-1] followed by
    [0..lastSlot] when the last slot is below the first. *)
Definition ringSlots (n firstSlot lastSlot : Z) : list Z :=
  if lastSlot >=? firstSlot
  then seqZ firstSlot (lastSlot - firstSlot + 1)
  else seqZ firstSlot (n - firstSlot) ++ seqZ 0 (lastSlot + 1).

(** The iterators of the slots of a list that hold a chunk, in list order. *)
Definition slotIters (a : AggMetric) (slots : list Z) : list Iter :=
  omap (fun i => SeriesIter <$> slotChunk (chunks a) i) slots.

(** What the spec says a read of an aligned pair returns, slots taken by
    the formula over the integers. *)
Definition claimedSelect (a : AggMetric) (firstRequestedStart lastRequestedStart : Z)
  : list Iter :=
  slotIters a (ringSlots (numChunks a)
                 (claimedSlot a firstRequestedStart)
                 (claimedSlot a lastRequestedStart)).

(** ** The states a store can be in *)

(** A store is built by [NewAggMetric]; afterwards aggregators subscribe
    to it and samples are added.  The reads change nothing. *)
Inductive reachable : AggMetric -> Prop :=
| reach_new (k : string) : reachable (NewAggMetric k)
| reach_subscribe (a : AggMetric) (g : Aggregator) :
    reachable a -> reachable (Subscribe a g)
| reach_add (a : AggMetric) (ts : Z) (val : float)
    (a' : AggMetric) (sigs : list SignalCall) :
    reachable a -> is_u32 ts -> Add a ts val = Ok (a', sigs) -> reachable a'.

(** What every reachable store satisfies. *)
Definition Inv (a : AggMetric) : Prop :=
  chunkSpan a = 120 /\ numChunks a = 5 /\ length (chunks a) = 5%nat /\
  lastTs a = 0 /\ lastStart a = firstStart a /\ is_u32 (firstStart a) /\
  (firstStart a <> 0 -> exists s, chunks a !! 0%nat = Some (Some s)).

(** ** Stores of the examples *)

(** The store of the scenarios: built by the constructor, no aggregator. *)
Definition freshStore : AggMetric := NewAggMetric "m".

(** A store whose ring has wrapped, as the samples (1000, 1.0), (1210, 2.0),
    (1330, 3.0), (1450, 4.0) and (1570, 5.0) leave the fresh store: the
    chunk of start 1560 sits in slot 0, slot 1 was never written, the
    chunks of 1200, 1320 and 1440 follow. *)
Definition wrappedStore : AggMetric :=
  {| key := "m";
     lastTs := 0;
     firstStart := 960;
     lastStart := 960;
     numChunks := 5;
     chunkSpan := 120;
     chunks :=
       [ Some {| T0 := 1560; points := [(1570, 5.0%float)]; finished := false |};
         None;
         Some {| T0 := 1200; points := [(1210, 2.0%float)]; finished := false |};
         Some {| T0 := 1320; points := [(1330, 3.0%float)]; finished := false |};
         Some {| T0 := 1440; points := [(1450, 4.0%float)]; finished := false |} ];
     aggregators := [] |}.

(** The fresh store with two aggregators subscribed, 7 first and 9 second. *)
Definition watchedStore : AggMetric := Subscribe (Subscribe freshStore 7) 9.

(** The fresh store after [Add(130, 2.0)]. *)
Definition lateStore : AggMetric :=
  {| key := "m";
     lastTs := 0;
     firstStart := 120;
     lastStart := 120;
     numChunks := 5;
     chunkSpan := 120;
     chunks :=
       [ Some {| T0 := 120; points := [(130, 2.0%float)]; finished := false |};
         None; None; None; None ];
     aggregators := [] |}.

(** [lateStore] after [Add(400, 3.0)]: the chunk of slot 0 is sealed and
    the new one sits in slot 2. *)
Definition laterStore : AggMetric :=
  {| key := "m";
     lastTs := 0;
     firstStart := 120;
     lastStart := 120;
     numChunks := 5;
     chunkSpan := 120;
     chunks :=
       [ Some {| T0 := 120; points := [(130, 2.0%float)]; finished := true |};
         None;
         Some {| T0 := 360; points := [(400, 3.0%float)]; finished := false |};
         None; None ];
     aggregators := [] |}.

(** [lateStore] after [Add(140, 2.5)], a second sample of its chunk. *)
Definition lateStore2 : AggMetric :=
  {| key := "m";
     lastTs := 0;
     firstStart := 120;
     lastStart := 120;
     numChunks := 5;
     chunkSpan := 120;
     chunks :=
       [ Some {| T0 := 120; points := [(130, 2.0%float); (140, 2.5%float)];
                 finished := false |};
         None; None; None; None ];
     aggregators := [] |}.

(** ** The paths of one [Add] *)

(** The paths of [Add], read back from a call that returned. *)
Inductive AddPath (a : AggMetric) (ts : Z) (val : float) (a' : AggMetric) : Prop :=
| path_rejected :
    ts <= lastTs a -> a' = a -> AddPath a ts val a'
| path_first (start : Z) :
    lastTs a < ts -> alignedStart a ts = Ok start -> firstStart a = 0 ->
    (0 < length (chunks a))%nat ->
    a' = set_chunks (<[0%nat := Some (Push (New start) ts val)]> (chunks a))
           (set_lastStart start (set_firstStart start a)) ->
    AddPath a ts val a'
| path_same (start index : Z) (s : Series) :
    lastTs a < ts -> alignedStart a ts = Ok start -> firstStart a <> 0 ->
    start = lastStart a -> slotOf a start = Ok index ->
    chunks a !! Z.to_nat index = Some (Some s) ->
    a' = set_chunks (<[Z.to_nat index := Some (Push s ts val)]> (chunks a)) a ->
    AddPath a ts val a'
| path_new (start lastIndex newIndex : Z) (s : Series) :
    lastTs a < ts -> alignedStart a ts = Ok start -> firstStart a <> 0 ->
    start <> lastStart a -> slotOf a (lastStart a) = Ok lastIndex ->
    chunks a !! Z.to_nat lastIndex = Some (Some s) ->
    slotOf a start = Ok newIndex ->
    (Z.to_nat newIndex < length (chunks a))%nat ->
    a' = set_chunks
           (<[Z.to_nat newIndex := Some (Push (New start) ts val)]>
              (<[Z.to_nat lastIndex := Some (Finish s)]> (chunks a))) a ->
    AddPath a ts val a'.

(** * The test-data generator: names of [cmd/mt-parrot/generate.go]

    Go's [int] is a [Z]; [/] and [%] on it truncate towards zero, which is
    [Z.quot] and [Z.rem]. *)

(** [var alphabet = []rune("abcdefghijklmnopqrstuvwxyz")]. *)
Definition alphabet : list ascii :=
  list_ascii_of_string "abcdefghijklmnopqrstuvwxyz".

(** [alphabet[k]] for a signed index: the runtime panics outside the slice. *)
Definition alphabetAt (k : Z) : go ascii :=
  if k <? 0 then Fault IndexOutOfRange
  else match alphabet !! Z.to_nat k with
       | Some c => Ok c
       | None => Fault IndexOutOfRange
       end.

Equations? generatePartitionSuffix (i : Z) : go string by wf (Z.to_nat i) lt :=
generatePartitionSuffix i with Z_lt_dec 25 i := {
  | left _ =>
      prefix ← generatePartitionSuffix (Z.quot i 26 - 1);
      c ← alphabetAt (Z.rem i 26);
      Ok (String.append prefix (String c EmptyString))
  | right _ =>
      c ← alphabetAt (Z.rem i 26);
      Ok (String c EmptyString) }.
Proof.
  assert (H : Z.quot i 26 <= i / 26) by (rewrite Z.quot_div_nonneg; lia).
  pose proof (Z.div_lt_upper_bound i 26 i ltac:(lia) ltac:(lia)). lia.
Qed.

(** The place of a letter in the alphabet, 0 for ['a']; 26 for any other
    character. *)
Definition letterIndex (c : ascii) : Z :=
  let n := Z.of_nat (nat_of_ascii c) in
  if (97 <=? n) && (n <=? 122) then n - 97 else 26.

(** The number a suffix stands for, read from its first letter on: the
    inverse of [generatePartitionSuffix] on the suffixes it builds. *)
Definition suffixValue (s : string) : Z :=
  fold_left (fun acc c => (acc + 1) * 26 + letterIndex c)
            (list_ascii_of_string s) (-1).

(** ** The generated metrics *)

(** The fields of [schema.MetricData] that [generateSchema] sets. *)
Record MetricData : Type := mkMetricData {
  OrgId : Z;
  Name : string;
  Interval : Z;
  Unit : string;
  Mtype : string
}.

Definition set_Name (n : string) (m : MetricData) : MetricData :=
  mkMetricData (OrgId m) n (Interval m) (Unit m) (Mtype m).

(** What [generate.go] takes from the rest of its package, which is not in
    the source files: the globals [orgId] and [testMetricsInterval] (in
    seconds), and the method [PartitionID] at the globals [partitionMethod]
    and [partitionCount], which gives a partition or an error. *)
Record Parrot : Type := mkParrot {
  orgId : Z;
  testMetricsIntervalSeconds : Z;
  PartitionID : MetricData -> Z + string
}.

(** How a call of the generator ends: with a result, in [log.Fatal], in a
    panic of the runtime, or not within the rounds it was given. *)
Inductive run (A : Type) : Type :=
| Done (x : A)
| Fatal (err : string)
| Panicked (f : fault)
| Searching.

Arguments Done {A} x.
Arguments Fatal {A} err.
Arguments Panicked {A} f.
Arguments Searching {A}.

(** The verb [%d] of [fmt.Sprintf] on an integer. *)
Definition formatInt (n : Z) : string := NilZero.string_of_int (Z.to_int n).

(** [fmt.Sprintf("parrot.testdata.%d.generated.%s", desiredPartition, suffix)]. *)
Definition metricName (desiredPartition : Z) (suffix : string) : string :=
  String.append "parrot.testdata."
    (String.append (formatInt desiredPartition)
       (String.append ".generated." suffix)).

(** The loop [for i := 1; true; i++] of [generateSchema], from [i] on, for
    at most [rounds] rounds. *)
Fixpoint generateSchemaLoop (p : Parrot) (rounds : nat) (desiredPartition : Z)
    (metric : MetricData) (i : Z) : run MetricData :=
  match rounds with
  | O => Searching
  | S rounds' =>
      match generatePartitionSuffix i with
      | Fault f => Panicked f
      | Ok suffix =>
          let metric := set_Name (metricName desiredPartition suffix) metric in
          match PartitionID p metric with
          | inr err => Fatal err
          | inl id =>
              if id =? desiredPartition then Done metric
              else generateSchemaLoop p rounds' desiredPartition metric (i + 1)
          end
      end
  end.

Definition generateSchema (p : Parrot) (rounds : nat) (desiredPartition : Z)
  : run MetricData :=
  let metric :=
    {| OrgId := orgId p;
       Name := "";
       Interval := testMetricsIntervalSeconds p;
       Unit := "partyparrots";
       Mtype := "gauge" |} in
  generateSchemaLoop p rounds desiredPartition metric 1.

(** The loop of [generateSchemas]: [n] rounds of
    [metrics = append(metrics, generateSchema(i)); i++]. *)
Fixpoint generateSchemasLoop (p : Parrot) (rounds : nat) (n : nat) (i : Z)
    (metrics : list MetricData) : run (list MetricData) :=
  match n with
  | O => Done metrics
  | S n' =>
      match generateSchema p rounds i with
      | Done m => generateSchemasLoop p rounds n' (i + 1) (metrics ++ [m])
      | Fatal err => Fatal err
      | Panicked f => Panicked f
      | Searching => Searching
      end
  end.

Definition generateSchemas (p : Parrot) (rounds : nat) (numPartitions : Z)
  : run (list MetricData) :=
  generateSchemasLoop p rounds (Z.to_nat numPartitions) 0 [].

(** The name that round [i] of [generateSchema] tries. *)
Definition candidateName (desiredPartition i : Z) : string :=
  match generatePartitionSuffix i with
  | Ok suffix => metricName desiredPartition suffix
  | Fault _ => ""
  end.

(** The metric that round [i] of [generateSchema] tries. *)
Definition candidateMetric (p : Parrot) (desiredPartition i : Z) : MetricData :=
  {| OrgId := orgId p;
     Name := candidateName desiredPartition i;
     Interval := testMetricsIntervalSeconds p;
     Unit := "partyparrots";
     Mtype := "gauge" |}.

(** A stand-in for the hashing of the examples: the partition of a metric
    is the sum of the character codes of its name modulo 4, and a name
    that ends in the letter e cannot be hashed. *)
Definition sumParrot : Parrot :=
  {| orgId := 1;
     testMetricsIntervalSeconds := 10;
     PartitionID := fun m =>
       let codes := map nat_of_ascii (list_ascii_of_string (Name m)) in
       match last codes with
       | Some 101%nat => inr "cannot hash"%string
       | _ => inl (Z.of_nat (list_sum codes) mod 4)
       end |}.

(** * Properties *)

(** ** The monad and the slices *)

Lemma go_bind_Ok {A B : Type} (m : go A) (k : A -> go B) (y : B) :
  m ≫= k = Ok y -> exists x, m = Ok x /\ k x = Ok y.
Proof. destruct m as [x|f]; cbn; [eauto | discriminate]. Qed.

Lemma wrap32_small (x : Z) : is_u32 x -> wrap32 x = x.
Proof. intros H. unfold wrap32. apply Z.mod_small. exact H. Qed.

Lemma wrap32_u32 (x : Z) : is_u32 (wrap32 x).
Proof. unfold is_u32, wrap32, u32_modulus. apply Z.mod_pos_bound. lia. Qed.

Lemma slotOf_wf (a : AggMetric) (s : Z) :
  wf a -> slotOf a s = Ok (slotIndex a s).
Proof.
  intros (Hspan & Hnum & _). unfold slotOf, udiv, umod, slotIndex.
  destruct (Z.eqb_spec (chunkSpan a) 0) as [E|_]; [lia|]. cbn.
  destruct (Z.eqb_spec (numChunks a) 0) as [E|_]; [lia|]. reflexivity.
Qed.

Lemma slotIndex_bound (a : AggMetric) (s : Z) :
  wf a -> 0 <= slotIndex a s < numChunks a.
Proof. intros (_ & Hnum & _). unfold slotIndex. apply Z.mod_pos_bound. lia. Qed.

Lemma index_chunk_in (cs : list (option Series)) (i : Z) :
  0 <= i < Z.of_nat (length cs) -> index_chunk cs i = Ok (slotChunk cs i).
Proof.
  intros Hi. unfold index_chunk, slotChunk.
  destruct (lookup_lt_is_Some_2 cs (Z.to_nat i)) as [c Hc]; [lia|].
  rewrite Hc. reflexivity.
Qed.

Lemma appendChunks_in (cs : list (option Series)) (n : nat) :
  forall (i : Z) (data : list (option Series)),
    0 <= i -> i + Z.of_nat n <= Z.of_nat (length cs) ->
    appendChunks cs i n data
    = Ok (data ++ (slotChunk cs <$> seqZ i (Z.of_nat n))).
Proof.
  induction n as [|n IH]; intros i data Hi Hlen.
  - cbn. rewrite app_nil_r. reflexivity.
  - cbn [appendChunks]. rewrite index_chunk_in by lia. cbn.
    rewrite IH by lia. rewrite (seqZ_cons i) by lia.
    rewrite fmap_cons, <- app_assoc. cbn.
    replace (Z.pred (Z.of_nat (S n))) with (Z.of_nat n) by lia.
    reflexivity.
Qed.

Lemma take_drop_slots (cs : list (option Series)) (n : nat) :
  forall i : Z,
    0 <= i -> i + Z.of_nat n <= Z.of_nat (length cs) ->
    take n (drop (Z.to_nat i) cs) = slotChunk cs <$> seqZ i (Z.of_nat n).
Proof.
  induction n as [|n IH]; intros i Hi Hlen; [reflexivity|].
  destruct (lookup_lt_is_Some_2 cs (Z.to_nat i)) as [c Hc]; [lia|].
  rewrite (drop_S _ _ _ Hc). cbn [take].
  rewrite (seqZ_cons i) by lia. rewrite fmap_cons.
  replace (Z.pred (Z.of_nat (S n))) with (Z.of_nat n) by lia.
  replace (S (Z.to_nat i)) with (Z.to_nat (Z.succ i)) by lia.
  rewrite IH by lia. unfold slotChunk at 2. rewrite Hc. reflexivity.
Qed.

Lemma chunkIters_omap (data : list (option Series)) :
  chunkIters data = omap (fmap SeriesIter) data.
Proof.
  induction data as [|[s|] rest IH]; cbn; [reflexivity| |exact IH].
  rewrite IH. reflexivity.
Qed.

Lemma omap_slots {A B C : Type} (g : A -> B) (f : B -> option C) (l : list A) :
  omap f (g <$> l) = omap (fun x => f (g x)) l.
Proof.
  induction l as [|x l IH]; cbn; [reflexivity|].
  rewrite IH. reflexivity.
Qed.

Lemma get_wf (a : AggMetric) (f l : Z) :
  wf a -> get a f l = Ok (Select a f l).
Proof.
  intros Hwf. pose proof (slotIndex_bound a f Hwf) as Hf.
  pose proof (slotIndex_bound a l Hwf) as Hl.
  destruct Hwf as (Hspan & Hnum & Hlen).
  assert (Hwf : wf a) by (repeat split; lia).
  unfold get, Select, candidateSlots.
  rewrite !slotOf_wf by exact Hwf. cbn.
  set (first := slotIndex a f) in *. set (last := slotIndex a l) in *.
  unfold Z.geb. rewrite Z.compare_antisym.
  destruct (Z.leb_spec first last) as [Hle|Hgt].
  - destruct (Z.compare_spec first last) as [E|E|E]; try lia; cbn;
      unfold slice_chunks;
      (rewrite wrap32_small by (unfold is_u32; lia));
      (destruct (Z.leb_spec first (last + 1)); [|lia]);
      (destruct (Z.leb_spec (last + 1) (Z.of_nat (length (chunks a)))); [|lia]);
      cbn; rewrite chunkIters_omap;
      (rewrite (take_drop_slots _ _ first) by lia);
      rewrite omap_slots;
      (replace (Z.of_nat (Z.to_nat (last + 1 - first))) with (last - first + 1) by lia);
      reflexivity.
  - destruct (Z.compare_spec first last) as [E|E|E]; try lia. cbn.
    rewrite appendChunks_in by lia. cbn.
    rewrite appendChunks_in by lia. cbn.
    rewrite chunkIters_omap, <- fmap_app, omap_slots.
    replace (Z.of_nat (Z.to_nat (numChunks a - first))) with (numChunks a - first) by lia.
    replace (Z.of_nat (Z.to_nat (last + 1))) with (last + 1) by lia.
    reflexivity.
Qed.

(** ** Reachable stores *)

Ltac go_step := cbn [mbind go_mbind go_bind mret go_ret].

Lemma store_chunk_in (cs : list (option Series)) (i : Z) (c : option Series) :
  0 <= i < Z.of_nat (length cs) ->
  store_chunk cs i c = Ok (<[Z.to_nat i := c]> cs).
Proof.
  intros Hi. unfold store_chunk.
  destruct (decide (Z.to_nat i < length cs)%nat) as [_|N]; [reflexivity|lia].
Qed.

Lemma Inv_wf (a : AggMetric) : Inv a -> wf a.
Proof.
  intros (Hspan & Hnum & Hlen & _). unfold wf, u32_modulus.
  rewrite Hspan, Hnum, Hlen. lia.
Qed.

Lemma Inv_new (k : string) : Inv (NewAggMetric k).
Proof.
  unfold Inv, is_u32, u32_modulus. cbn.
  repeat split; try reflexivity; lia.
Qed.

Lemma alignedStart_wf (a : AggMetric) (ts : Z) :
  wf a -> alignedStart a ts = Ok (wrap32 (ts - ts mod chunkSpan a)).
Proof.
  intros (Hspan & _). unfold alignedStart, umod.
  destruct (Z.eqb_spec (chunkSpan a) 0) as [E|_]; [lia|]. reflexivity.
Qed.

Lemma slotIndex_firstStart (a : AggMetric) : wf a -> slotIndex a (firstStart a) = 0.
Proof.
  intros (Hspan & Hnum & _). unfold slotIndex.
  rewrite Z.sub_diag. change (wrap32 0) with 0.
  rewrite Z.div_0_l by lia. apply Z.mod_0_l. lia.
Qed.

(** On a reachable store [Add] never panics; it sends no signal for a
    sample it drops and one per aggregator otherwise. *)
Lemma Add_Inv (a : AggMetric) (ts : Z) (val : float) :
  Inv a ->
  exists a',
    Add a ts val
    = Ok (a', if ts <=? lastTs a then [] else signalAggregators a ts) /\
    Inv a' /\ key a' = key a /\ aggregators a' = aggregators a.
Proof.
  intros HI. pose proof (Inv_wf a HI) as Hwf. pose proof HI as HI0.
  destruct HI as (Hspan & Hnum & Hlen & Hts & Hls & Hfs & H0).
  unfold Add. destruct (ts <=? lastTs a) eqn:Erej.
  { exists a. split; [reflexivity|]. split; [exact HI0|]. split; reflexivity. }
  rewrite alignedStart_wf by exact Hwf. go_step.
  set (start := wrap32 (ts - ts mod chunkSpan a)).
  assert (Hstart : is_u32 start) by apply wrap32_u32.
  destruct (Z.eqb_spec (firstStart a) 0) as [Efs|Nfs].
  - cbn [chunks set_lastStart set_firstStart].
    rewrite store_chunk_in by lia. go_step.
    eexists. split; [reflexivity|]. split; [|split; reflexivity].
    unfold Inv. cbn. rewrite length_insert.
    repeat split; try assumption; try apply Hstart.
    intros _. eexists. apply list_lookup_insert_eq. lia.
  - destruct (H0 Nfs) as [s0 Hs0].
    assert (Hc0 : slotChunk (chunks a) 0 = Some s0).
    { unfold slotChunk. change (Z.to_nat 0) with 0%nat. rewrite Hs0. reflexivity. }
    destruct (Z.eqb_spec start (lastStart a)) as [Es|Ns].
    + rewrite slotOf_wf by exact Hwf. go_step.
      rewrite Es, Hls, slotIndex_firstStart by exact Hwf.
      rewrite index_chunk_in by lia. go_step. rewrite Hc0.
      cbn [deref]. go_step. rewrite store_chunk_in by lia. go_step.
      eexists. split; [reflexivity|]. split; [|split; reflexivity].
      unfold Inv. cbn. rewrite length_insert.
      repeat split; try assumption; try apply Hfs.
      intros _. eexists. apply list_lookup_insert_eq. lia.
    + rewrite slotOf_wf by exact Hwf. go_step.
      rewrite Hls, slotIndex_firstStart by exact Hwf.
      rewrite index_chunk_in by lia. go_step. rewrite Hc0.
      cbn [deref]. go_step. rewrite store_chunk_in by lia. go_step.
      set (a1 := set_chunks _ a).
      assert (Hwf1 : wf a1).
      { unfold wf, a1. cbn. rewrite length_insert. exact Hwf. }
      rewrite slotOf_wf by exact Hwf1. go_step.
      pose proof (slotIndex_bound a1 start Hwf1) as Hb.
      assert (Hlen1 : length (chunks a1) = 5%nat).
      { unfold a1. cbn. rewrite length_insert. exact Hlen. }
      assert (Hn1 : numChunks a1 = 5) by exact Hnum.
      rewrite store_chunk_in by lia. go_step.
      eexists. split; [reflexivity|]. split; [|split; reflexivity].
      unfold Inv. cbn. rewrite !length_insert.
      repeat split; try assumption; try apply Hfs.
      intros _.
      destruct (decide (Z.to_nat (slotIndex a1 start) = 0%nat)) as [E0|N0].
      * rewrite E0. eexists. apply list_lookup_insert_eq.
        rewrite length_insert. lia.
      * rewrite list_lookup_insert_ne by exact N0.
        eexists. apply list_lookup_insert_eq. lia.
Qed.

Lemma reachable_Inv (a : AggMetric) : reachable a -> Inv a.
Proof.
  induction 1 as [k|a g _ IH|a ts val a' sigs _ IH Hts Hadd].
  - apply Inv_new.
  - exact IH.
  - destruct (Add_Inv a ts val IH) as (a'' & Hadd' & HI & _).
    rewrite Hadd in Hadd'. injection Hadd' as -> _. exact HI.
Qed.

Lemma reachable_wf (a : AggMetric) : reachable a -> wf a.
Proof. intros H. apply Inv_wf, reachable_Inv, H. Qed.

(** ** What [Add] leaves alone, in every state *)

Ltac add_cases H :=
  unfold Add in H;
  repeat match type of H with
    | (if ?c then _ else _) = _ => destruct c eqn:?
    | _ ≫= _ = Ok _ => apply go_bind_Ok in H as (? & ? & H)
    end;
  repeat match goal with
    | H' : (if ?c then _ else _) = Ok _ |- _ => destruct c eqn:?
    | H' : _ ≫= _ = Ok _ |- _ => apply go_bind_Ok in H' as (? & ? & H')
    end.

(** No path of [Add] assigns [lastTs]. *)
Lemma Add_keeps_lastTs (a a' : AggMetric) (ts : Z) (val : float)
    (sigs : list SignalCall) :
  Add a ts val = Ok (a', sigs) -> lastTs a' = lastTs a.
Proof.
  intros H. add_cases H;
    repeat match goal with
      | H' : Ok _ = Ok _ |- _ => injection H' as ?; subst
      end; reflexivity.
Qed.

(** Past the first-sample branch [Add] assigns neither start. *)
Lemma Add_keeps_starts (a a' : AggMetric) (ts : Z) (val : float)
    (sigs : list SignalCall) :
  firstStart a <> 0 -> Add a ts val = Ok (a', sigs) ->
  firstStart a' = firstStart a /\ lastStart a' = lastStart a.
Proof.
  intros Hfs H. add_cases H;
    repeat match goal with
      | H' : Ok _ = Ok _ |- _ => injection H' as ?; subst
      | H' : (firstStart _ =? 0) = true |- _ => apply Z.eqb_eq in H'
      end; try contradiction; split; reflexivity.
Qed.

(** A sample at or before [lastTs] changes nothing and signals nobody. *)
Lemma Add_rejects (a : AggMetric) (ts : Z) (val : float) :
  ts <= lastTs a -> Add a ts val = Ok (a, []).
Proof.
  intros H. unfold Add. destruct (Z.leb_spec ts (lastTs a)); [reflexivity|lia].
Qed.

(** ** The window of the reads when the retained span does not underflow *)

Lemma aligned_u32 (x span : Z) :
  0 < span -> is_u32 x -> wrap32 (x - x mod span) = x - x mod span.
Proof.
  intros Hspan Hx. apply wrap32_small. unfold is_u32 in *.
  pose proof (Z.mod_pos_bound x span Hspan).
  pose proof (Z.mod_le x span ltac:(lia) Hspan). lia.
Qed.

Lemma oldestStart_no_underflow (a : AggMetric) :
  wf a -> is_u32 (lastStart a) -> numChunks a * chunkSpan a <= lastStart a ->
  oldestStart a = lastStart a - numChunks a * chunkSpan a.
Proof.
  intros (Hspan & Hnum & _) Hls Hle. unfold oldestStart.
  assert (0 <= numChunks a * chunkSpan a) by nia.
  unfold is_u32 in Hls.
  rewrite (wrap32_small (numChunks a * chunkSpan a)) by (unfold is_u32; lia).
  apply wrap32_small. unfold is_u32. lia.
Qed.

(** X15: when [numChunks * chunkSpan] does not exceed [lastStart], the
    window of the untrusted read of a range with [from < to] is the aligned
    start of [from], raised to [lastStart - numChunks * chunkSpan], and the
    aligned start of [to - 1], lowered to [lastStart], maximum and minimum
    being those of the integers. *)
Lemma unsafeWindow_no_underflow (a : AggMetric) (from to : Z) :
  wf a -> is_u32 from -> is_u32 to -> from < to ->
  is_u32 (lastStart a) -> numChunks a * chunkSpan a <= lastStart a ->
  unsafeWindow a from to
  = Ok (Z.max (from - from mod chunkSpan a)
              (lastStart a - numChunks a * chunkSpan a),
        Z.min ((to - 1) - (to - 1) mod chunkSpan a) (lastStart a)).
Proof.
  intros Hwf Hfrom Hto Hlt Hls Hle. unfold unsafeWindow.
  assert (Hto1 : is_u32 (to - 1)) by (unfold is_u32 in *; lia).
  rewrite (wrap32_small (to - 1)) by exact Hto1.
  rewrite !alignedStart_wf by exact Hwf. go_step.
  rewrite oldestStart_no_underflow by assumption.
  destruct Hwf as (Hspan & _).
  rewrite !aligned_u32 by assumption.
  f_equal. f_equal.
  - destruct (Z.ltb_spec (from - from mod chunkSpan a)
                (lastStart a - numChunks a * chunkSpan a)); lia.
  - destruct (Z.ltb_spec (lastStart a)
                (to - 1 - (to - 1) mod chunkSpan a)); lia.
Qed.

(** X14: when [numChunks * chunkSpan] does not exceed [lastStart], the
    trusted read panics exactly when [to <= from], or the aligned start of
    [from] is before [lastStart - numChunks * chunkSpan], or the aligned
    start of [to - 1] is after [lastStart]. *)
Lemma GetSafe_faults_no_underflow (a : AggMetric) (from to : Z) :
  wf a -> is_u32 from -> is_u32 to ->
  is_u32 (lastStart a) -> numChunks a * chunkSpan a <= lastStart a ->
  (exists f, GetSafe a from to = Fault f) <->
  (to <= from \/
   from - from mod chunkSpan a < lastStart a - numChunks a * chunkSpan a \/
   lastStart a < (to - 1) - (to - 1) mod chunkSpan a).
Proof.
  intros Hwf Hfrom Hto Hls Hle. unfold GetSafe.
  destruct (Z.leb_spec to from) as [Hge|Hlt].
  { split; [intros _; left; exact Hge | intros _; eexists; reflexivity]. }
  assert (Hto1 : is_u32 (to - 1)) by (unfold is_u32 in *; lia).
  rewrite (wrap32_small (to - 1)) by exact Hto1.
  rewrite !alignedStart_wf by exact Hwf. go_step.
  rewrite oldestStart_no_underflow by assumption.
  pose proof Hwf as (Hspan & _).
  rewrite !aligned_u32 by assumption.
  destruct (Z.ltb_spec (from - from mod chunkSpan a)
              (lastStart a - numChunks a * chunkSpan a)) as [H1|H1].
  { split; [intros _; right; left; exact H1 | intros _; eexists; reflexivity]. }
  destruct (Z.ltb_spec (lastStart a)
              (to - 1 - (to - 1) mod chunkSpan a)) as [H2|H2].
  { split; [intros _; right; right; exact H2 | intros _; eexists; reflexivity]. }
  rewrite get_wf by exact Hwf.
  split; [intros [f Hf]; discriminate | lia].
Qed.

(** ** The stores of the examples are stores of the code *)

Example wrappedStore_built :
  AddAll freshStore
    [(1000, 1.0%float); (1210, 2.0%float); (1330, 3.0%float);
     (1450, 4.0%float); (1570, 5.0%float)]
  = Ok (wrappedStore, []).
Proof. vm_compute. reflexivity. Qed.

Example lateStore_built : Add freshStore 130 2.0 = Ok (lateStore, []).
Proof. vm_compute. reflexivity. Qed.

(** * The claims *)

(** On a well-formed store [get] returns [Select], whose slots take the
    subtraction [start - firstStart] in [uint32] as the code does; from
    [firstStart] on that slot is the one of the formula over the
    integers. *)
Theorem get_follows_Select (a : AggMetric) (f l : Z) :
  wf a -> is_u32 f -> is_u32 l -> is_u32 (firstStart a) ->
  get a f l = Ok (Select a f l) /\
  (firstStart a <= f ->
   slotIndex a f = ((f - firstStart a) / chunkSpan a) mod numChunks a) /\
  (firstStart a <= l ->
   slotIndex a l = ((l - firstStart a) / chunkSpan a) mod numChunks a).
Proof.
  intros Hwf Hf Hl Hfs. split; [apply get_wf, Hwf|].
  unfold slotIndex, is_u32 in *.
  split; intros Hle; rewrite wrap32_small; try reflexivity; unfold is_u32; lia.
Qed.

Lemma get_follows_Select_witness :
  get wrappedStore 1200 1560
  = Ok [ {| iterT0 := 1200; iterPoints := [(1210, 2.0%float)] |};
         {| iterT0 := 1320; iterPoints := [(1330, 3.0%float)] |};
         {| iterT0 := 1440; iterPoints := [(1450, 4.0%float)] |};
         {| iterT0 := 1560; iterPoints := [(1570, 5.0%float)] |} ] /\
  candidateSlots wrappedStore 1200 1560 = [2; 3; 4; 0].
Proof.
  split; [|reflexivity].
  assert (Hwf : wf wrappedStore) by (vm_compute; intuition congruence).
  assert (H1 : is_u32 1200) by (unfold is_u32, u32_modulus; lia).
  assert (H2 : is_u32 1560) by (unfold is_u32, u32_modulus; lia).
  assert (H3 : is_u32 (firstStart wrappedStore))
    by (unfold is_u32, u32_modulus; cbn; lia).
  destruct (get_follows_Select wrappedStore 1200 1560 Hwf H1 H2 H3) as [E _].
  rewrite E. reflexivity.
Defined.

(** C8, the code at the failing input: on the store that the five samples
    leave, the untrusted read of [0, 1001) hands [get] the aligned pair
    (360, 960).  The code takes [360 - 960] in [uint32], so its first slot
    is 4 where [((360 - 960) / 120) mod 5] is 0: the read starts one slot
    early and returns the chunk of slot 4, of start 1440, before the chunk
    of slot 0, where the slots of the formula select slot 0 alone. *)
Theorem get_slot_wraps_before_firstStart :
  AddAll freshStore
    [(1000, 1.0%float); (1210, 2.0%float); (1330, 3.0%float);
     (1450, 4.0%float); (1570, 5.0%float)]
  = Ok (wrappedStore, []) /\
  unsafeWindow wrappedStore 0 1001 = Ok (360, 960) /\
  slotOf wrappedStore 360 = Ok 4 /\
  claimedSlot wrappedStore 360 = 0 /\
  slotOf wrappedStore 960 = Ok 0 /\
  claimedSlot wrappedStore 960 = 0 /\
  get wrappedStore 360 960
  = Ok [ {| iterT0 := 1440; iterPoints := [(1450, 4.0%float)] |};
         {| iterT0 := 1560; iterPoints := [(1570, 5.0%float)] |} ] /\
  claimedSelect wrappedStore 360 960
  = [ {| iterT0 := 1560; iterPoints := [(1570, 5.0%float)] |} ] /\
  GetUnsafe wrappedStore 0 1001
  = Ok ([ {| iterT0 := 1440; iterPoints := [(1450, 4.0%float)] |};
          {| iterT0 := 1560; iterPoints := [(1570, 5.0%float)] |} ], None).
Proof.
  split; [vm_compute; reflexivity|].
  split; [vm_compute; reflexivity|].
  split; [vm_compute; reflexivity|].
  split; [reflexivity|].
  split; [vm_compute; reflexivity|].
  split; [reflexivity|].
  split; [vm_compute; reflexivity|].
  split; [vm_compute; reflexivity|].
  vm_compute. reflexivity.
Qed.

(** C9: on a reachable store an accepted [Add] calls [Signal] once for
    every subscribed aggregator, in subscription order, with this entity
    and the timestamp just added; a rejected [Add] calls it for none. *)
Theorem Add_signal_fanout (a : AggMetric) (ts : Z) (val : float) :
  reachable a -> is_u32 ts ->
  exists a',
    Add a ts val
    = Ok (a', if ts <=? lastTs a then []
              else map (fun agg => mkSignal agg (key a) ts) (aggregators a)).
Proof.
  intros Hr _. destruct (Add_Inv a ts val (reachable_Inv a Hr)) as (a' & H & _).
  exists a'. exact H.
Qed.

Lemma Add_signal_fanout_witness :
  exists a',
    Add watchedStore 100 1.0
    = Ok (a', [mkSignal 7 "m" 100; mkSignal 9 "m" 100]).
Proof.
  assert (Hr : reachable watchedStore)
    by (apply reach_subscribe, reach_subscribe, reach_new).
  assert (Hts : is_u32 100) by (unfold is_u32, u32_modulus; lia).
  destruct (Add_signal_fanout watchedStore 100 1.0 Hr Hts) as [a' E].
  exists a'. exact E.
Defined.

(** C10: on a reachable store (five slots, span 120) an untrusted read with
    [from < to] never panics, whatever the window: it returns the iterators
    of the candidate slots of its clamped window, possibly none, and no
    error. *)
Theorem GetUnsafe_crash_free (a : AggMetric) (from to : Z) :
  reachable a -> is_u32 from -> is_u32 to -> from < to ->
  exists w,
    unsafeWindow a from to = Ok w /\
    GetUnsafe a from to = Ok (Select a w.1 w.2, None) /\
    Forall (fun i => 0 <= i < Z.of_nat (length (chunks a)))
           (candidateSlots a w.1 w.2).
Proof.
  intros Hr Hfrom Hto Hlt. pose proof (reachable_wf a Hr) as Hwf.
  unfold GetUnsafe, unsafeWindow.
  destruct (Z.leb_spec to from) as [Hge|_]; [lia|].
  rewrite !alignedStart_wf by exact Hwf. go_step.
  eexists. split; [reflexivity|]. go_step.
  rewrite get_wf by exact Hwf. go_step. split; [reflexivity|].
  unfold candidateSlots.
  set (w := (_, _)).
  pose proof (slotIndex_bound a w.1 Hwf) as H1.
  pose proof (slotIndex_bound a w.2 Hwf) as H2.
  destruct Hwf as (_ & _ & Hlen). rewrite Hlen.
  destruct (slotIndex a w.2 >=? slotIndex a w.1) eqn:E.
  - apply list.Forall_forall. intros i Hi.
    apply elem_of_seqZ in Hi. lia.
  - apply Forall_app. split; apply list.Forall_forall; intros i Hi;
      apply elem_of_seqZ in Hi; lia.
Qed.

Lemma lateStore_reachable : reachable lateStore.
Proof.
  apply (reach_add freshStore 130 2.0 lateStore []).
  - apply reach_new.
  - unfold is_u32, u32_modulus. lia.
  - reflexivity.
Defined.

Lemma GetUnsafe_crash_free_witness :
  exists w,
    unsafeWindow lateStore 0 250 = Ok w /\
    GetUnsafe lateStore 0 250 = Ok (Select lateStore w.1 w.2, None) /\
    Forall (fun i => 0 <= i < Z.of_nat (length (chunks lateStore)))
           (candidateSlots lateStore w.1 w.2).
Proof.
  apply (GetUnsafe_crash_free lateStore 0 250 lateStore_reachable);
    unfold is_u32, u32_modulus; lia.
Defined.

(** C1 as the code has it: on the store of the constructor (span 120, five
    slots) [Add(100, 1.0)] opens the first chunk at aligned start 0 in
    slot 0, holding the point (100, 1.0), and after the following
    [Add(130, 2.0)] the trusted read of [0, 250) faults: it panics and
    returns no iterator. *)
Theorem trusted_read_scenario :
  exists a1 a2,
    Add freshStore 100 1.0 = Ok (a1, []) /\
    chunks a1 !! 0%nat
    = Some (Some {| T0 := 0; points := [(100, 1.0%float)]; finished := false |}) /\
    Add a1 130 2.0 = Ok (a2, []) /\
    GetSafe a2 0 250
    = Fault (ExplicitPanic "requested a firstStart that is too old").
Proof.
  eexists. eexists.
  split; [vm_compute; reflexivity|].
  split; [reflexivity|].
  split; [vm_compute; reflexivity|].
  vm_compute. reflexivity.
Qed.

(** C1 as the claim states it does not hold: the trusted read of [0, 250)
    after the two samples returns no two iterators, it panics. *)
Lemma trusted_read_scenario_counterexample :
  ~ (exists a1 s1 a2 s2,
       Add freshStore 100 1.0 = Ok (a1, s1) /\
       Add a1 130 2.0 = Ok (a2, s2) /\
       GetSafe a2 0 250
       = Ok [ {| iterT0 := 0; iterPoints := [(100, 1.0%float)] |};
              {| iterT0 := 120; iterPoints := [(130, 2.0%float)] |} ]).
Proof.
  intros (a1 & s1 & a2 & s2 & H1 & H2 & H3).
  vm_compute in H1. injection H1 as <- <-.
  vm_compute in H2. injection H2 as <- <-.
  vm_compute in H3. discriminate H3.
Qed.

(** C2, the code at the failing input: after [Add(1000, 1.0)] the fresh
    store has [lastStart = 960]; [Add(1100, 2.0)], whose aligned start 1080
    is greater, seals the chunk of slot 0 and opens one in slot 1, and
    leaves [lastStart] at 960. *)
Theorem Add_new_chunk_leaves_lastStart :
  exists a1 a2,
    Add freshStore 1000 1.0 = Ok (a1, []) /\
    lastStart a1 = 960 /\
    alignedStart a1 1100 = Ok 1080 /\
    Add a1 1100 2.0 = Ok (a2, []) /\
    chunks a2
    = [ Some {| T0 := 960; points := [(1000, 1.0%float)]; finished := true |};
        Some {| T0 := 1080; points := [(1100, 2.0%float)]; finished := false |};
        None; None; None ] /\
    lastStart a2 = 960.
Proof.
  eexists. eexists.
  split; [vm_compute; reflexivity|].
  split; [reflexivity|].
  split; [reflexivity|].
  split; [vm_compute; reflexivity|].
  split; reflexivity.
Qed.

(** C3, the code at the failing input: [Add(100, 1.0)] on the fresh store
    is accepted (the chunk holds the sample) and [lastTs] is still 0. *)
Theorem Add_accepted_leaves_lastTs :
  exists a1,
    Add freshStore 100 1.0 = Ok (a1, []) /\
    chunks a1 !! 0%nat
    = Some (Some {| T0 := 0; points := [(100, 1.0%float)]; finished := false |}) /\
    lastTs a1 = 0.
Proof.
  eexists. split; [vm_compute; reflexivity|]. split; reflexivity.
Qed.

(** C4, the code at the failing input: with aggregators 7 and 9 subscribed,
    [Add(100, 1.0)] and then the duplicate [Add(100, 2.0)]: the second call
    is not dropped, it replaces the chunk of slot 0 and signals both
    aggregators. *)
Theorem Add_duplicate_not_rejected :
  exists a1 a2,
    Add watchedStore 100 1.0
    = Ok (a1, [mkSignal 7 "m" 100; mkSignal 9 "m" 100]) /\
    Add a1 100 2.0
    = Ok (a2, [mkSignal 7 "m" 100; mkSignal 9 "m" 100]) /\
    chunks a1 !! 0%nat
    = Some (Some {| T0 := 0; points := [(100, 1.0%float)]; finished := false |}) /\
    chunks a2 !! 0%nat
    = Some (Some {| T0 := 0; points := [(100, 2.0%float)]; finished := false |}) /\
    a2 <> a1.
Proof.
  eexists. eexists.
  split; [vm_compute; reflexivity|].
  split; [vm_compute; reflexivity|].
  split; [reflexivity|]. split; [reflexivity|].
  intros E. apply (f_equal chunks) in E. vm_compute in E. discriminate E.
Qed.

(** C5, the code at the failing input: on the store left by
    [Add(130, 2.0)] ([lastStart = 120]) the untrusted read of [0, 250)
    resolves the first requested start to 4294966816, the wrapped value of
    [120 - 5*120], where the maximum over the integers is 0. *)
Theorem GetUnsafe_window_wraps :
  Add freshStore 130 2.0 = Ok (lateStore, []) /\
  unsafeWindow lateStore 0 250 = Ok (4294966816, 120) /\
  Z.max (0 - 0 mod chunkSpan lateStore)
        (lastStart lateStore - numChunks lateStore * chunkSpan lateStore) = 0 /\
  Z.min ((250 - 1) - (250 - 1) mod chunkSpan lateStore) (lastStart lateStore)
  = 120 /\
  GetUnsafe lateStore 0 250
  = Ok ([ {| iterT0 := 120; iterPoints := [(130, 2.0%float)] |} ], None).
Proof.
  split; [vm_compute; reflexivity|].
  split; [vm_compute; reflexivity|].
  split; [reflexivity|]. split; [reflexivity|].
  vm_compute. reflexivity.
Qed.

(** C6, the code at the failing input: on the store left by
    [Add(130, 2.0)] the trusted read of [130, 131) asks for the aligned
    window 120..120, which is the one retained chunk: [from < to], 120 is
    not before [120 - 5*120] and not past [lastStart]; the read panics all
    the same, as too old. *)
Theorem GetSafe_faults_inside_retention :
  Add freshStore 130 2.0 = Ok (lateStore, []) /\
  alignedStart lateStore 130 = Ok 120 /\
  alignedStart lateStore (131 - 1) = Ok 120 /\
  130 < 131 /\
  ~ 120 < lastStart lateStore - numChunks lateStore * chunkSpan lateStore /\
  ~ lastStart lateStore < 120 /\
  GetSafe lateStore 130 131
  = Fault (ExplicitPanic "requested a firstStart that is too old").
Proof.
  split; [vm_compute; reflexivity|].
  split; [reflexivity|]. split; [reflexivity|].
  split; [lia|]. split; [cbn; lia|]. split; [cbn; lia|].
  vm_compute. reflexivity.
Qed.

(** C7, the code at the failing input: [Add(100, 1.0)] on the fresh store
    sets [firstStart] to the aligned start 0 of the sample, and the next
    call [Add(130, 2.0)] sets it again, to 120, putting its chunk in
    slot 0 over the first one. *)
Theorem Add_sets_firstStart_twice :
  exists a1 a2,
    Add freshStore 100 1.0 = Ok (a1, []) /\
    alignedStart freshStore 100 = Ok 0 /\
    firstStart a1 = 0 /\
    Add a1 130 2.0 = Ok (a2, []) /\
    firstStart a2 = 120 /\
    chunks a2
    = [ Some {| T0 := 120; points := [(130, 2.0%float)]; finished := false |};
        None; None; None; None ].
Proof.
  eexists. eexists.
  split; [vm_compute; reflexivity|].
  split; [reflexivity|]. split; [reflexivity|].
  split; [vm_compute; reflexivity|].
  split; reflexivity.
Qed.

(** * More of the code *)

(** ** The suffixes of generated names *)

Lemma alphabetAt_letter (k : Z) :
  0 <= k < 26 ->
  exists c, alphabetAt k = Ok c /\ letterIndex c = k /\ c ∈ alphabet.
Proof.
  intros Hk. unfold alphabetAt.
  destruct (Z.ltb_spec k 0) as [N|_]; [lia|].
  destruct (alphabet !! Z.to_nat k) as [c|] eqn:E.
  - exists c. split; [reflexivity|]. split.
    + assert (Hn : (Z.to_nat k < 26)%nat) by lia.
      rewrite <- (Z2Nat.id k) by lia.
      revert E. generalize (Z.to_nat k) Hn. clear. intros n Hn.
      do 26 (destruct n as [|n]; [intros [= <-]; reflexivity|]). lia.
    + apply list_elem_of_lookup. exists (Z.to_nat k). exact E.
  - apply lookup_ge_None in E. cbn in E. lia.
Qed.

Lemma list_ascii_of_string_append (s t : string) :
  list_ascii_of_string (String.append s t)
  = list_ascii_of_string s ++ list_ascii_of_string t.
Proof. induction s as [|c s IH]; cbn; [reflexivity|]. rewrite IH. reflexivity. Qed.

Lemma suffixValue_snoc (s : string) (c : ascii) :
  suffixValue (String.append s (String c EmptyString))
  = (suffixValue s + 1) * 26 + letterIndex c.
Proof.
  unfold suffixValue. rewrite list_ascii_of_string_append, fold_left_app.
  reflexivity.
Qed.

(** What [generatePartitionSuffix] builds from a number that is not
    negative: letters only, at least one, and they spell the number. *)
Lemma generatePartitionSuffix_nonneg (i : Z) :
  0 <= i ->
  exists s,
    generatePartitionSuffix i = Ok s /\ suffixValue s = i /\
    s <> EmptyString /\ Forall (fun c => c ∈ alphabet) (list_ascii_of_string s).
Proof.
  revert i. apply (Zlt_0_ind
    (fun i => exists s, generatePartitionSuffix i = Ok s /\ suffixValue s = i /\
       s <> EmptyString /\ Forall (fun c => c ∈ alphabet) (list_ascii_of_string s))).
  intros i IH Hi. rewrite generatePartitionSuffix_equation_1.
  destruct (Z_lt_dec 25 i) as [Hbig|Hsmall]; cbn.
  - rewrite Z.quot_div_nonneg, Z.rem_mod_nonneg by lia.
    pose proof (Z.div_mod i 26 ltac:(lia)) as Hdm.
    pose proof (Z.mod_pos_bound i 26 ltac:(lia)) as Hm.
    destruct (IH (i / 26 - 1) ltac:(lia)) as (p & Ep & Vp & Np & Lp).
    destruct (alphabetAt_letter (i mod 26) Hm) as (c & Ec & Ic & Mc).
    rewrite Ep. cbn. rewrite Ec. cbn. eexists. split; [reflexivity|].
    split; [rewrite suffixValue_snoc, Vp, Ic; lia|].
    split; [destruct p; cbn; discriminate|].
    rewrite list_ascii_of_string_append. apply Forall_app. split; [exact Lp|].
    cbn. constructor; [exact Mc|constructor].
  - rewrite Z.rem_mod_nonneg by lia. rewrite Z.mod_small by lia.
    destruct (alphabetAt_letter i ltac:(lia)) as (c & Ec & Ic & Mc).
    rewrite Ec. cbn. eexists. split; [reflexivity|].
    split; [unfold suffixValue; cbn; rewrite Ic; lia|].
    split; [discriminate|]. cbn. constructor; [exact Mc|constructor].
Qed.

(** X1: for every number that is not negative [generatePartitionSuffix]
    returns, and its suffix is a non-empty word over the letters a..z. *)
Theorem generatePartitionSuffix_letters (i : Z) :
  0 <= i ->
  exists s,
    generatePartitionSuffix i = Ok s /\ s <> EmptyString /\
    Forall (fun c => c ∈ alphabet) (list_ascii_of_string s).
Proof.
  intros Hi. destruct (generatePartitionSuffix_nonneg i Hi) as (s & E & _ & N & L).
  exists s. repeat split; assumption.
Qed.

Lemma generatePartitionSuffix_letters_witness :
  exists s,
    generatePartitionSuffix 702 = Ok s /\ s <> EmptyString /\
    Forall (fun c => c ∈ alphabet) (list_ascii_of_string s).
Proof. apply (generatePartitionSuffix_letters 702). lia. Defined.

(** X2: the suffix spells its number in the bijective base 26 of the
    letters: reading the suffix of [i] back gives [i]. *)
Theorem suffixValue_generatePartitionSuffix (i : Z) (s : string) :
  0 <= i -> generatePartitionSuffix i = Ok s -> suffixValue s = i.
Proof.
  intros Hi E. destruct (generatePartitionSuffix_nonneg i Hi) as (s' & E' & V & _).
  rewrite E in E'. injection E' as ->. exact V.
Qed.

Lemma suffixValue_generatePartitionSuffix_witness :
  generatePartitionSuffix 701 = Ok "zz"%string /\ suffixValue "zz" = 701.
Proof.
  split; [reflexivity|].
  apply (suffixValue_generatePartitionSuffix 701 "zz"); [lia|reflexivity].
Defined.

(** X3: two different numbers, neither negative, never get the same
    suffix. *)
Theorem generatePartitionSuffix_injective (i j : Z) :
  0 <= i -> 0 <= j -> i <> j ->
  generatePartitionSuffix i <> generatePartitionSuffix j.
Proof.
  intros Hi Hj Hne E. apply Hne.
  destruct (generatePartitionSuffix_nonneg i Hi) as (s & Ei & Vi & _).
  destruct (generatePartitionSuffix_nonneg j Hj) as (t & Ej & Vj & _).
  rewrite Ei, Ej in E. congruence.
Qed.

Lemma generatePartitionSuffix_injective_witness :
  generatePartitionSuffix 1 <> generatePartitionSuffix 27.
Proof. apply (generatePartitionSuffix_injective 1 27); lia. Defined.

(** X4: a negative number makes [generatePartitionSuffix] panic on the
    index of the alphabet, unless it is a multiple of 26, for which the
    suffix is "a". *)
Theorem generatePartitionSuffix_negative (i : Z) :
  i < 0 ->
  generatePartitionSuffix i
  = if Z.rem i 26 =? 0 then Ok "a"%string else Fault IndexOutOfRange.
Proof.
  intros Hi. rewrite generatePartitionSuffix_equation_1.
  destruct (Z_lt_dec 25 i) as [Hbig|Hsmall]; [lia|]. cbn.
  pose proof (Z.rem_nonpos i 26 ltac:(lia) ltac:(lia)) as Hr.
  destruct (Z.eqb_spec (Z.rem i 26) 0) as [E|N].
  - rewrite E. reflexivity.
  - unfold alphabetAt. destruct (Z.ltb_spec (Z.rem i 26) 0); [reflexivity|lia].
Qed.

Lemma generatePartitionSuffix_negative_witness :
  generatePartitionSuffix (-1) = Fault IndexOutOfRange /\
  generatePartitionSuffix (-26) = Ok "a"%string.
Proof.
  split.
  - apply (generatePartitionSuffix_negative (-1)). lia.
  - apply (generatePartitionSuffix_negative (-26)). lia.
Defined.

(** ** Alignment and slots of the ring *)

(** X5: on a store of positive span the aligned start of a timestamp is a
    multiple of the span, lies at most one span (exclusive) below the
    timestamp, and is its own aligned start. *)
Theorem alignedStart_bounds (a : AggMetric) (ts : Z) :
  wf a -> is_u32 ts ->
  exists s,
    alignedStart a ts = Ok s /\ s mod chunkSpan a = 0 /\
    s <= ts < s + chunkSpan a /\ alignedStart a s = Ok s.
Proof.
  intros Hwf Hts. pose proof Hwf as (Hspan & _).
  pose proof (Z.mod_pos_bound ts (chunkSpan a) Hspan) as Hm.
  pose proof (Z.div_mod ts (chunkSpan a) ltac:(lia)) as Hdm.
  assert (Hs : ts - ts mod chunkSpan a = ts / chunkSpan a * chunkSpan a)
    by (rewrite (Z.mul_comm (ts / chunkSpan a)); lia).
  exists (ts - ts mod chunkSpan a).
  rewrite !alignedStart_wf by exact Hwf.
  rewrite aligned_u32 by assumption.
  assert (Hz : (ts - ts mod chunkSpan a) mod chunkSpan a = 0)
    by (rewrite Hs; apply Z.mod_mul; lia).
  split; [reflexivity|]. split; [exact Hz|]. split; [lia|].
  rewrite Hz, Z.sub_0_r. f_equal. apply wrap32_small.
  unfold is_u32 in *.
  pose proof (Z.mod_le ts (chunkSpan a) ltac:(lia) Hspan). lia.
Qed.

Lemma alignedStart_bounds_witness :
  exists s,
    alignedStart freshStore 130 = Ok s /\ s mod chunkSpan freshStore = 0 /\
    s <= 130 < s + chunkSpan freshStore /\ alignedStart freshStore s = Ok s.
Proof.
  apply (alignedStart_bounds freshStore 130).
  - vm_compute. intuition congruence.
  - unfold is_u32, u32_modulus. lia.
Defined.

(** X6: two chunk starts at or after [firstStart], a whole number of spans
    from it, get different slots when they are less than [numChunks] spans
    apart, and the same slot when they are exactly [numChunks] spans
    apart: a chunk is overwritten by the one a whole ring later, and by no
    nearer one. *)
Theorem slotOf_ring (a : AggMetric) (s1 s2 i1 i2 : Z) :
  wf a -> 0 <= firstStart a <= s1 -> s1 < s2 -> s2 < u32_modulus ->
  (s1 - firstStart a) mod chunkSpan a = 0 ->
  (s2 - firstStart a) mod chunkSpan a = 0 ->
  slotOf a s1 = Ok i1 -> slotOf a s2 = Ok i2 ->
  (s2 - s1 < numChunks a * chunkSpan a -> i1 <> i2) /\
  (s2 - s1 = numChunks a * chunkSpan a -> i1 = i2).
Proof.
  intros Hwf H1 H12 H2 A1 A2 E1 E2.
  rewrite slotOf_wf in E1, E2 by exact Hwf.
  injection E1 as <-. injection E2 as <-.
  destruct Hwf as (Hspan & Hnum & _). unfold slotIndex.
  rewrite !wrap32_small by (unfold is_u32, u32_modulus in *; lia).
  apply Z.mod_divide in A1, A2; try lia.
  destruct A1 as [k1 K1], A2 as [k2 K2].
  rewrite K1, K2, !Z.div_mul by lia.
  assert (Hk : k1 < k2) by nia.
  split.
  - intros Hnear Heq. assert (Hd : k2 - k1 < numChunks a) by nia.
    rewrite (Z.mod_eq k1), (Z.mod_eq k2) in Heq by lia.
    set (d := k2 / numChunks a - k1 / numChunks a).
    assert (Hmul : k2 - k1 = numChunks a * d) by (unfold d; lia).
    destruct (Z.le_gt_cases d 0); nia.
  - intros Hfar. assert (Hd : k2 = k1 + 1 * numChunks a) by nia.
    rewrite Hd, Z.mod_add by lia. reflexivity.
Qed.

Lemma slotOf_ring_witness :
  (1200 - 960 < numChunks wrappedStore * chunkSpan wrappedStore -> 0 <> 2) /\
  (1200 - 960 = numChunks wrappedStore * chunkSpan wrappedStore -> 0 = 2).
Proof.
  apply (slotOf_ring wrappedStore 960 1200 0 2);
    try reflexivity; try (cbn; lia); try (unfold u32_modulus; lia).
  vm_compute. intuition congruence.
Defined.

(** ** The two reads *)

(** X7: the window that the untrusted read hands to [get] never starts
    before the oldest start the code computes and never ends after
    [lastStart]. *)
Theorem unsafeWindow_clamped (a : AggMetric) (from to f l : Z) :
  unsafeWindow a from to = Ok (f, l) ->
  oldestStart a <= f /\ l <= lastStart a.
Proof.
  unfold unsafeWindow. intros H.
  apply go_bind_Ok in H as (f0 & _ & H).
  apply go_bind_Ok in H as (l0 & _ & H).
  injection H as <- <-. split.
  - destruct (Z.ltb_spec f0 (oldestStart a)); lia.
  - destruct (Z.ltb_spec (lastStart a) l0); lia.
Qed.

Lemma unsafeWindow_clamped_witness :
  oldestStart lateStore <= 4294966816 /\ 120 <= lastStart lateStore.
Proof. apply (unsafeWindow_clamped lateStore 0 250). reflexivity. Defined.

(** X8: whenever the trusted read returns, the untrusted read of the same
    range returns the same iterators and no error. *)
Theorem GetSafe_then_GetUnsafe (a : AggMetric) (from to : Z) (its : list Iter) :
  GetSafe a from to = Ok its -> GetUnsafe a from to = Ok (its, None).
Proof.
  unfold GetSafe, GetUnsafe, unsafeWindow. intros H.
  destruct (to <=? from); [discriminate|].
  destruct (alignedStart a from) as [f0|]; [|discriminate].
  destruct (alignedStart a (wrap32 (to - 1))) as [l0|]; [|discriminate].
  cbn in *.
  destruct (f0 <? oldestStart a); [discriminate|].
  destruct (lastStart a <? l0); [discriminate|].
  cbn. rewrite H. reflexivity.
Qed.

Lemma GetSafe_then_GetUnsafe_witness :
  GetUnsafe wrappedStore 1000 1001
  = Ok ([ {| iterT0 := 1560; iterPoints := [(1570, 5.0%float)] |} ], None).
Proof. apply (GetSafe_then_GetUnsafe wrappedStore 1000 1001). reflexivity. Defined.

(** ** What one [Add] does to the store *)

Lemma store_chunk_Ok (cs cs' : list (option Series)) (i : Z) (c : option Series) :
  store_chunk cs i c = Ok cs' ->
  cs' = <[Z.to_nat i := c]> cs /\ (Z.to_nat i < length cs)%nat.
Proof.
  unfold store_chunk. destruct (decide (Z.to_nat i < length cs)%nat) as [H|H];
    [intros [= <-]; split; [reflexivity|exact H] | discriminate].
Qed.

Lemma index_deref_Ok (cs : list (option Series)) (i : Z) (c : option Series)
    (s : Series) :
  index_chunk cs i = Ok c -> deref c = Ok s -> cs !! Z.to_nat i = Some (Some s).
Proof.
  unfold index_chunk, deref. destruct (cs !! Z.to_nat i) as [c'|]; [|discriminate].
  intros [= ->]. destruct c as [s'|]; [|discriminate]. intros [= ->]. reflexivity.
Qed.

Lemma Add_paths (a a' : AggMetric) (ts : Z) (val : float) (sigs : list SignalCall) :
  Add a ts val = Ok (a', sigs) ->
  AddPath a ts val a' /\
  sigs = (if ts <=? lastTs a then [] else signalAggregators a ts).
Proof.
  unfold Add. intros H.
  destruct (Z.leb_spec ts (lastTs a)) as [Hrej|Hacc].
  { injection H as <- <-. split; [apply path_rejected; [exact Hrej|reflexivity]|reflexivity]. }
  apply go_bind_Ok in H as (start & Hstart & H).
  destruct (Z.eqb_spec (firstStart a) 0) as [Hfs|Hfs].
  - apply go_bind_Ok in H as (cs & Hcs & H).
    apply store_chunk_Ok in Hcs as [-> Hlen]. injection H as <- <-.
    split; [|reflexivity]. eapply path_first; eauto.
  - apply go_bind_Ok in H as (a1 & H1 & H). injection H as <- <-.
    destruct (Z.eqb_spec start (lastStart a)) as [Hs|Hs].
    + apply go_bind_Ok in H1 as (index & Hi & H1).
      apply go_bind_Ok in H1 as (c & Hc & H1).
      apply go_bind_Ok in H1 as (s & Hd & H1).
      apply go_bind_Ok in H1 as (cs & Hcs & H1).
      apply store_chunk_Ok in Hcs as [-> _]. injection H1 as <-.
      split; [|reflexivity].
      eapply path_same; eauto using index_deref_Ok.
    + apply go_bind_Ok in H1 as (lastIndex & Hli & H1).
      apply go_bind_Ok in H1 as (c & Hc & H1).
      apply go_bind_Ok in H1 as (s & Hd & H1).
      apply go_bind_Ok in H1 as (cs & Hcs & H1).
      apply store_chunk_Ok in Hcs as [-> _].
      apply go_bind_Ok in H1 as (newIndex & Hni & H1).
      apply go_bind_Ok in H1 as (cs' & Hcs' & H1).
      apply store_chunk_Ok in Hcs' as [-> Hlen]. injection H1 as <-.
      cbn in Hlen. rewrite length_insert in Hlen.
      split; [|reflexivity].
      eapply path_new; eauto using index_deref_Ok.
Qed.

(** X9: a call of [Add] that returns leaves the key, the capacity, the
    span, the aggregators and the number of slots as they were. *)
Theorem Add_frame (a a' : AggMetric) (ts : Z) (val : float)
    (sigs : list SignalCall) :
  Add a ts val = Ok (a', sigs) ->
  key a' = key a /\ numChunks a' = numChunks a /\ chunkSpan a' = chunkSpan a /\
  aggregators a' = aggregators a /\ length (chunks a') = length (chunks a).
Proof.
  intros H. apply Add_paths in H as [P _].
  destruct P as [_ ->|start _ _ _ _ ->|start index s _ _ _ _ _ _ ->
                |start li ni s _ _ _ _ _ _ _ _ ->];
    cbn; rewrite ?length_insert; repeat split; reflexivity.
Qed.

Lemma Add_frame_witness :
  key lateStore = key freshStore /\ numChunks lateStore = numChunks freshStore /\
  chunkSpan lateStore = chunkSpan freshStore /\
  aggregators lateStore = aggregators freshStore /\
  length (chunks lateStore) = length (chunks freshStore).
Proof. apply (Add_frame freshStore lateStore 130 2.0 []). reflexivity. Defined.

(** X10: [firstStart] is written by the first-sample path only: a call
    that finds it nonzero leaves it, and an accepted call that finds it 0
    sets it to the aligned start of its sample. *)
Theorem Add_firstStart (a a' : AggMetric) (ts : Z) (val : float)
    (sigs : list SignalCall) :
  Add a ts val = Ok (a', sigs) ->
  (firstStart a <> 0 -> firstStart a' = firstStart a) /\
  (firstStart a = 0 -> lastTs a < ts -> alignedStart a ts = Ok (firstStart a')).
Proof.
  intros H. apply Add_paths in H as [P _].
  destruct P as [Hrej ->|start Hacc Hst Hfs _ ->|start index s _ _ Hfs _ _ _ ->
                |start li ni s _ _ Hfs _ _ _ _ _ ->]; cbn;
    split; intros; try reflexivity; try lia; try contradiction; assumption.
Qed.

Lemma Add_firstStart_witness :
  (firstStart freshStore <> 0 -> firstStart lateStore = firstStart freshStore) /\
  (firstStart freshStore = 0 -> lastTs freshStore < 130 ->
   alignedStart freshStore 130 = Ok (firstStart lateStore)).
Proof. apply (Add_firstStart freshStore lateStore 130 2.0 []). reflexivity. Defined.

(** X11: [Add] writes at most two slots: every slot other than the one of
    [lastStart] and the one of the aligned start of the sample (slots as
    the store has them after the call) holds what it held before. *)
Theorem Add_other_slots (a a' : AggMetric) (ts start : Z) (val : float)
    (sigs : list SignalCall) (j : nat) :
  wf a -> Add a ts val = Ok (a', sigs) -> alignedStart a ts = Ok start ->
  j <> Z.to_nat (slotIndex a' (lastStart a')) ->
  j <> Z.to_nat (slotIndex a' start) ->
  chunks a' !! j = chunks a !! j.
Proof.
  intros Hwf H Hst. apply Add_paths in H as [P _].
  destruct P as [_ ->|start' _ Hst' _ Hlen ->|start' index s _ Hst' _ _ Hi _ ->
                |start' li ni s _ Hst' _ _ Hli _ Hni _ ->];
    [reflexivity| | |];
    rewrite Hst in Hst'; injection Hst' as <-.
  - set (a1 := set_chunks _ _).
    assert (Hwf1 : wf a1).
    { unfold wf, a1. cbn. rewrite length_insert. exact Hwf. }
    assert (E0 : slotIndex a1 start = 0) by exact (slotIndex_firstStart a1 Hwf1).
    intros _ Hj. rewrite E0 in Hj. unfold a1. cbn.
    apply list_lookup_insert_ne. intros E. apply Hj. rewrite <- E. reflexivity.
  - rewrite slotOf_wf in Hi by exact Hwf. injection Hi as <-.
    intros _ Hj. cbn. apply list_lookup_insert_ne.
    intros E. apply Hj. rewrite <- E. reflexivity.
  - rewrite slotOf_wf in Hli, Hni by exact Hwf.
    injection Hli as <-. injection Hni as <-.
    intros Hj1 Hj2. cbn.
    rewrite !list_lookup_insert_ne; [reflexivity| |].
    + intros E. apply Hj1. rewrite <- E. reflexivity.
    + intros E. apply Hj2. rewrite <- E. reflexivity.
Qed.

Lemma laterStore_built : Add lateStore 400 3.0 = Ok (laterStore, []).
Proof. vm_compute. reflexivity. Qed.

Lemma lateStore2_built : Add lateStore 140 2.5 = Ok (lateStore2, []).
Proof. vm_compute. reflexivity. Qed.

Lemma lateStore_wf : wf lateStore.
Proof. vm_compute. intuition congruence. Defined.

Lemma Add_other_slots_witness :
  chunks laterStore !! 1%nat = chunks lateStore !! 1%nat.
Proof.
  apply (Add_other_slots lateStore laterStore 400 360 3.0 [] 1 lateStore_wf);
    try reflexivity; vm_compute; lia.
Defined.

Lemma candidateSlots_same (a : AggMetric) (s : Z) :
  candidateSlots a s s = [slotIndex a s].
Proof.
  unfold candidateSlots. rewrite Z.geb_leb, Z.leb_refl, Z.sub_diag.
  reflexivity.
Qed.

(** X12: an accepted sample that opens a chunk (the first sample, or one
    whose aligned start is not [lastStart]) can be read back at once: [get]
    at its aligned start returns one iterator, of a chunk with that start
    holding just this sample. *)
Theorem Add_opens_readable_chunk (a a' : AggMetric) (ts start : Z) (val : float)
    (sigs : list SignalCall) :
  wf a -> Add a ts val = Ok (a', sigs) -> lastTs a < ts ->
  alignedStart a ts = Ok start ->
  firstStart a = 0 \/ start <> lastStart a ->
  get a' start start = Ok [ {| iterT0 := start; iterPoints := [(ts, val)] |} ].
Proof.
  intros Hwf H Hacc Hst Hopen. apply Add_paths in H as [P _].
  destruct P as [Hrej _|start' _ Hst' _ Hlen ->|start' index s _ Hst' Hfs Hs _ _ _
                |start' li ni s _ Hst' _ _ _ _ Hni Hlen ->];
    [lia| | |];
    rewrite Hst in Hst'; injection Hst' as <-.
  - set (a1 := set_chunks _ _).
    assert (Hwf1 : wf a1).
    { unfold wf, a1. cbn. rewrite length_insert. exact Hwf. }
    assert (E0 : slotIndex a1 start = 0) by exact (slotIndex_firstStart a1 Hwf1).
    rewrite get_wf by exact Hwf1. unfold Select.
    rewrite candidateSlots_same, E0. cbn. unfold slotChunk. cbn.
    rewrite list_lookup_insert_eq by exact Hlen. reflexivity.
  - destruct Hopen; contradiction.
  - set (a1 := set_chunks _ _).
    assert (Hwf1 : wf a1).
    { unfold wf, a1. cbn. rewrite !length_insert. exact Hwf. }
    rewrite slotOf_wf in Hni by exact Hwf. injection Hni as <-.
    rewrite get_wf by exact Hwf1. unfold Select.
    rewrite candidateSlots_same.
    change (slotIndex a1 start) with (slotIndex a start).
    cbn. unfold slotChunk. cbn.
    rewrite list_lookup_insert_eq by (rewrite length_insert; exact Hlen).
    reflexivity.
Qed.

Lemma Add_opens_readable_chunk_witness :
  get laterStore 360 360
  = Ok [ {| iterT0 := 360; iterPoints := [(400, 3.0%float)] |} ].
Proof.
  apply (Add_opens_readable_chunk lateStore laterStore 400 360 3.0 [] lateStore_wf).
  - reflexivity.
  - cbn. lia.
  - reflexivity.
  - right. cbn. lia.
Defined.

(** X13: an accepted sample of the current chunk (aligned start equal to
    [lastStart]) is pushed onto the chunk that the slot held: reading that
    start back gives the iterator of the old chunk with the sample pushed,
    whose points, if the chunk was not sealed, are the old ones followed
    by the sample. *)
Theorem Add_pushes_on_current_chunk (a a' : AggMetric) (ts start : Z)
    (val : float) (sigs : list SignalCall) :
  wf a -> Add a ts val = Ok (a', sigs) -> lastTs a < ts ->
  alignedStart a ts = Ok start -> firstStart a <> 0 -> start = lastStart a ->
  exists s,
    get a start start = Ok [SeriesIter s] /\
    get a' start start = Ok [SeriesIter (Push s ts val)] /\
    (finished s = false ->
     iterPoints (SeriesIter (Push s ts val)) = points s ++ [(ts, val)]).
Proof.
  intros Hwf H Hacc Hst Hfs Hs. apply Add_paths in H as [P _].
  destruct P as [Hrej _|start' _ _ Hfs' _ _|start' index s _ Hst' _ _ Hi Hc ->
                |start' li ni s _ Hst' _ Hs' _ _ _ _ _];
    [lia|contradiction| |];
    rewrite Hst in Hst'; injection Hst' as <-; [|contradiction].
  rewrite slotOf_wf in Hi by exact Hwf. injection Hi as <-.
  exists s. set (a1 := set_chunks _ _).
  assert (Hwf1 : wf a1).
  { unfold wf, a1. cbn. rewrite length_insert. exact Hwf. }
  assert (Hlen : (Z.to_nat (slotIndex a start) < length (chunks a))%nat)
    by (apply lookup_lt_is_Some; eauto).
  split; [|split].
  - rewrite get_wf by exact Hwf. unfold Select.
    rewrite candidateSlots_same. cbn. unfold slotChunk.
    rewrite Hc. reflexivity.
  - rewrite get_wf by exact Hwf1. unfold Select.
    rewrite candidateSlots_same.
    change (slotIndex a1 start) with (slotIndex a start).
    cbn. unfold slotChunk. cbn.
    rewrite list_lookup_insert_eq by exact Hlen. reflexivity.
  - intros Hopen. unfold Push. rewrite Hopen. reflexivity.
Qed.

Lemma Add_pushes_on_current_chunk_witness :
  exists s,
    get lateStore 120 120 = Ok [SeriesIter s] /\
    get lateStore2 120 120 = Ok [SeriesIter (Push s 140 2.5)] /\
    (finished s = false ->
     iterPoints (SeriesIter (Push s 140 2.5)) = points s ++ [(140, 2.5%float)]).
Proof.
  apply (Add_pushes_on_current_chunk lateStore lateStore2 140 120 2.5 [] lateStore_wf).
  - reflexivity.
  - cbn. lia.
  - reflexivity.
  - cbn. lia.
  - reflexivity.
Defined.

(** ** More on the reads *)

Lemma wrappedStore_wf : wf wrappedStore.
Proof. vm_compute. intuition congruence. Defined.

Lemma u32_literal (x : Z) : (0 <=? x) && (x <? u32_modulus) = true -> is_u32 x.
Proof.
  intros H. apply andb_prop in H as [H1 H2].
  apply Z.leb_le in H1. apply Z.ltb_lt in H2. split; assumption.
Defined.

Lemma GetSafe_faults_no_underflow_witness :
  (exists f, GetSafe wrappedStore 100 1001 = Fault f) <->
  (1001 <= 100 \/
   100 - 100 mod chunkSpan wrappedStore
   < lastStart wrappedStore - numChunks wrappedStore * chunkSpan wrappedStore \/
   lastStart wrappedStore < (1001 - 1) - (1001 - 1) mod chunkSpan wrappedStore).
Proof.
  apply (GetSafe_faults_no_underflow wrappedStore 100 1001 wrappedStore_wf).
  - apply u32_literal. reflexivity.
  - apply u32_literal. reflexivity.
  - apply u32_literal. reflexivity.
  - cbn. lia.
Defined.

Lemma unsafeWindow_no_underflow_witness :
  unsafeWindow wrappedStore 100 5000
  = Ok (Z.max (100 - 100 mod chunkSpan wrappedStore)
              (lastStart wrappedStore
               - numChunks wrappedStore * chunkSpan wrappedStore),
        Z.min ((5000 - 1) - (5000 - 1) mod chunkSpan wrappedStore)
              (lastStart wrappedStore)).
Proof.
  apply (unsafeWindow_no_underflow wrappedStore 100 5000 wrappedStore_wf).
  - apply u32_literal. reflexivity.
  - apply u32_literal. reflexivity.
  - lia.
  - apply u32_literal. reflexivity.
  - cbn. lia.
Defined.

(** X16: while [lastStart] is below [numChunks * chunkSpan] the trusted
    read panics for every range: the oldest start the code computes has
    wrapped around and lies above [lastStart], so no window fits between
    the two. *)
Theorem GetSafe_faults_below_one_ring (a : AggMetric) (from to : Z) :
  wf a -> is_u32 from -> is_u32 to -> is_u32 (lastStart a) ->
  lastStart a < numChunks a * chunkSpan a < u32_modulus ->
  exists f, GetSafe a from to = Fault f.
Proof.
  intros Hwf Hfrom Hto Hls Hring. unfold GetSafe.
  destruct (Z.leb_spec to from) as [Hge|Hlt]; [eexists; reflexivity|].
  assert (Hto1 : is_u32 (to - 1)) by (unfold is_u32 in *; lia).
  rewrite (wrap32_small (to - 1)) by exact Hto1.
  rewrite !alignedStart_wf by exact Hwf. go_step.
  pose proof Hwf as (Hspan & _).
  rewrite !aligned_u32 by assumption.
  assert (Hold : oldestStart a
                 = u32_modulus + lastStart a - numChunks a * chunkSpan a).
  { unfold oldestStart, is_u32 in *.
    rewrite (wrap32_small (numChunks a * chunkSpan a)) by (unfold is_u32; lia).
    unfold wrap32.
    rewrite <- (Z.mod_add _ 1 u32_modulus) by (unfold u32_modulus; lia).
    rewrite Z.mod_small; lia. }
  destruct (Z.ltb_spec (from - from mod chunkSpan a) (oldestStart a)) as [H1|H1];
    [eexists; reflexivity|].
  destruct (Z.ltb_spec (lastStart a) (to - 1 - (to - 1) mod chunkSpan a)) as [H2|H2];
    [eexists; reflexivity|].
  exfalso.
  assert (Hmono : from - from mod chunkSpan a <= to - 1 - (to - 1) mod chunkSpan a).
  { rewrite !Z.mod_eq by lia.
    pose proof (Z.div_le_mono from (to - 1) (chunkSpan a) Hspan ltac:(lia)) as Hd.
    pose proof (Z.mul_le_mono_nonneg_l _ _ (chunkSpan a) ltac:(lia) Hd). lia. }
  unfold is_u32 in *. lia.
Qed.

Lemma GetSafe_faults_below_one_ring_witness :
  exists f, GetSafe lateStore 130 131 = Fault f.
Proof.
  apply (GetSafe_faults_below_one_ring lateStore 130 131 lateStore_wf).
  - apply u32_literal. reflexivity.
  - apply u32_literal. reflexivity.
  - apply u32_literal. reflexivity.
  - unfold u32_modulus. cbn. lia.
Defined.

Lemma omap_all_None {A B : Type} (f : A -> option B) (l : list A) :
  (forall x, f x = None) -> omap f l = [].
Proof.
  intros H. induction l as [|x l IH]; cbn; [reflexivity|].
  rewrite H. exact IH.
Qed.

(** X17: a store that never got a sample answers every untrusted read of
    a range with [from < to] with no iterators and no error. *)
Theorem GetUnsafe_fresh_store (k : string) (from to : Z) :
  is_u32 from -> is_u32 to -> from < to ->
  GetUnsafe (NewAggMetric k) from to = Ok ([], None).
Proof.
  intros Hfrom Hto Hlt.
  assert (Hwf : wf (NewAggMetric k)) by (apply reachable_wf, reach_new).
  unfold GetUnsafe, unsafeWindow.
  destruct (Z.leb_spec to from) as [Hge|_]; [lia|].
  rewrite !alignedStart_wf by exact Hwf. go_step.
  rewrite get_wf by exact Hwf. go_step.
  unfold Select. rewrite omap_all_None; [reflexivity|].
  intros i. unfold slotChunk.
  destruct (chunks (NewAggMetric k) !! Z.to_nat i) as [c|] eqn:E; [|reflexivity].
  cbn in E. apply lookup_replicate in E as [-> _]. reflexivity.
Qed.

Lemma GetUnsafe_fresh_store_witness :
  GetUnsafe (NewAggMetric "m") 50 80 = Ok ([], None).
Proof.
  apply (GetUnsafe_fresh_store "m" 50 80).
  - apply u32_literal. reflexivity.
  - apply u32_literal. reflexivity.
  - lia.
Defined.






(** ** What every store of the code looks like *)

(** X19: every store that the constructor builds and [Add] feeds keeps the
    shape of the constructor, span 120 and five slots, and its [firstStart]
    is a 32-bit multiple of the span; once [firstStart] is not 0, slot 0
    holds a chunk. *)
Theorem reachable_shape (a : AggMetric) :
  reachable a ->
  chunkSpan a = 120 /\ numChunks a = 5 /\ length (chunks a) = 5%nat /\
  is_u32 (firstStart a) /\ firstStart a mod 120 = 0 /\
  (firstStart a <> 0 -> exists s, chunks a !! 0%nat = Some (Some s)).
Proof.
  intros Hr.
  assert (Hal : firstStart a mod 120 = 0).
  { induction Hr as [k|a g _ IH|a ts val a' sigs Hr IH Hts Hadd];
      [reflexivity|exact IH|].
    pose proof (reachable_Inv a Hr) as HI. pose proof (Inv_wf a HI) as Hwf.
    destruct HI as (Hspan & _).
    destruct (Add_paths _ _ _ _ _ Hadd) as [P _].
    destruct P as [_ ->|start _ Hst _ _ ->|start index s _ _ _ _ _ _ ->
                  |start li ni s _ _ _ _ _ _ _ _ ->]; cbn; try exact IH.
    rewrite alignedStart_wf in Hst by exact Hwf. injection Hst as <-.
    rewrite Hspan. rewrite aligned_u32 by (assumption || lia).
    pose proof (Z.div_mod ts 120 ltac:(lia)) as Hdm.
    replace (ts - ts mod 120) with (ts / 120 * 120) by lia.
    apply Z.mod_mul. lia. }
  destruct (reachable_Inv a Hr) as (Hspan & Hnum & Hlen & _ & _ & Hfs & H0).
  repeat split; try assumption; apply Hfs.
Qed.

Lemma reachable_shape_witness :
  chunkSpan lateStore = 120 /\ numChunks lateStore = 5 /\
  length (chunks lateStore) = 5%nat /\
  is_u32 (firstStart lateStore) /\ firstStart lateStore mod 120 = 0 /\
  (firstStart lateStore <> 0 ->
   exists s, chunks lateStore !! 0%nat = Some (Some s)).
Proof. apply (reachable_shape lateStore). exact lateStore_reachable. Defined.

(** ** The generated metrics *)

Lemma candidateName_suffix (d i : Z) :
  0 <= i ->
  exists suffix,
    generatePartitionSuffix i = Ok suffix /\
    candidateName d i = metricName d suffix.
Proof.
  intros Hi. destruct (generatePartitionSuffix_nonneg i Hi) as (s & E & _).
  exists s. unfold candidateName. rewrite E. split; reflexivity.
Qed.

(** What a run of the loop that ends with a metric has done. *)
Lemma generateSchemaLoop_Done (p : Parrot) (d : Z) (rounds : nat) :
  forall (metric m : MetricData) (i : Z),
    0 <= i ->
    generateSchemaLoop p rounds d metric i = Done m ->
    exists j,
      i <= j < i + Z.of_nat rounds /\
      m = set_Name (candidateName d j) metric /\
      PartitionID p m = inl d /\
      forall k, i <= k < j ->
        exists id, PartitionID p (set_Name (candidateName d k) metric) = inl id /\
                   id <> d.
Proof.
  induction rounds as [|rounds IH]; intros metric m i Hi H; [discriminate|].
  cbn [generateSchemaLoop] in H.
  destruct (candidateName_suffix d i Hi) as (suffix & Es & En).
  rewrite Es in H. cbv beta iota zeta in H. rewrite <- En in H.
  destruct (PartitionID p (set_Name (candidateName d i) metric)) as [id|err] eqn:Ep;
    [|discriminate].
  destruct (Z.eqb_spec id d) as [->|Hne].
  - injection H as <-. exists i. split; [lia|]. split; [reflexivity|].
    split; [exact Ep|]. intros k Hk. lia.
  - apply IH in H as (j & Hj & -> & Hp & Hbefore); [|lia].
    exists j. split; [lia|]. split; [reflexivity|]. split; [exact Hp|].
    intros k Hk. destruct (Z.eq_dec k i) as [->|Hki].
    + exists id. split; [exact Ep|exact Hne].
    + apply (Hbefore k). lia.
Qed.

(** The loop run for long enough stops at the first round that decides. *)
Lemma generateSchemaLoop_first (p : Parrot) (d : Z) (rounds : nat) :
  forall (metric : MetricData) (i j : Z),
    0 <= i <= j -> (Z.to_nat (j - i) < rounds)%nat ->
    (forall k, i <= k < j ->
       exists id, PartitionID p (set_Name (candidateName d k) metric) = inl id /\
                  id <> d) ->
    generateSchemaLoop p rounds d metric i
    = match PartitionID p (set_Name (candidateName d j) metric) with
      | inl id => if id =? d then Done (set_Name (candidateName d j) metric)
                  else generateSchemaLoop p (rounds - S (Z.to_nat (j - i))) d
                         (set_Name (candidateName d j) metric) (j + 1)
      | inr err => Fatal err
      end.
Proof.
  induction rounds as [|rounds IH]; intros metric i j Hij Hr Hbefore; [lia|].
  cbn [generateSchemaLoop].
  destruct (candidateName_suffix d i ltac:(lia)) as (suffix & Es & En).
  rewrite Es. cbv beta iota zeta. rewrite <- En.
  destruct (Z.eq_dec i j) as [->|Hne].
  - rewrite Z.sub_diag. cbn. rewrite Nat.sub_0_r. reflexivity.
  - destruct (Hbefore i ltac:(lia)) as (id & Ep & Hid). rewrite Ep.
    destruct (Z.eqb_spec id d) as [E|_]; [contradiction|].
    rewrite (IH _ (i + 1) j) by (try lia; intros k Hk; apply Hbefore; lia).
    cbn. replace (rounds - S (Z.to_nat (j - (i + 1))))%nat
      with (S rounds - S (Z.to_nat (j - i)))%nat by lia.
    reflexivity.
Qed.

(** X20: a metric that [generateSchema] returns hashes to the desired
    partition, carries the fixed fields of the generator, and bears the
    name of the first round, counted from 1, whose name hashes there: all
    rounds before it hashed to other partitions, without error. *)
Theorem generateSchema_Done (p : Parrot) (rounds : nat) (d : Z) (m : MetricData) :
  generateSchema p rounds d = Done m ->
  PartitionID p m = inl d /\
  exists j,
    1 <= j <= Z.of_nat rounds /\ m = candidateMetric p d j /\
    forall k, 1 <= k < j ->
      exists id, PartitionID p (candidateMetric p d k) = inl id /\ id <> d.
Proof.
  unfold generateSchema. intros H.
  apply generateSchemaLoop_Done in H as (j & Hj & -> & Hp & Hbefore); [|lia].
  split; [exact Hp|]. exists j. split; [lia|]. split; [reflexivity|].
  exact Hbefore.
Qed.

Lemma generateSchema_Done_witness :
  PartitionID sumParrot (candidateMetric sumParrot 3 2) = inl 3 /\
  exists j,
    1 <= j <= Z.of_nat 5 /\
    candidateMetric sumParrot 3 2 = candidateMetric sumParrot 3 j /\
    forall k, 1 <= k < j ->
      exists id, PartitionID sumParrot (candidateMetric sumParrot 3 k) = inl id /\
                 id <> 3.
Proof. apply (generateSchema_Done sumParrot 5 3). reflexivity. Defined.

(** X21: if round [j] is the first whose name hashes to the desired
    partition, no earlier round failing to hash, then [generateSchema]
    given at least [j] rounds returns the metric of round [j]. *)
Theorem generateSchema_finds_first (p : Parrot) (rounds : nat) (d j : Z) :
  1 <= j <= Z.of_nat rounds ->
  PartitionID p (candidateMetric p d j) = inl d ->
  (forall k, 1 <= k < j ->
     exists id, PartitionID p (candidateMetric p d k) = inl id /\ id <> d) ->
  generateSchema p rounds d = Done (candidateMetric p d j).
Proof.
  intros Hj Hp Hbefore. unfold generateSchema.
  rewrite (generateSchemaLoop_first p d rounds _ 1 j) by (try lia; exact Hbefore).
  change (set_Name (candidateName d j) _) with (candidateMetric p d j).
  rewrite Hp, Z.eqb_refl. reflexivity.
Qed.

Lemma generateSchema_finds_first_witness :
  generateSchema sumParrot 5 3 = Done (candidateMetric sumParrot 3 2).
Proof.
  apply (generateSchema_finds_first sumParrot 5 3 2).
  - lia.
  - reflexivity.
  - intros k Hk. assert (E : k = 1) by lia. subst k.
    exists 2. split; [reflexivity|lia].
Defined.

(** X22: if the first round that does not hash to another partition fails
    to hash, [generateSchema] given enough rounds ends in [log.Fatal] with
    that error. *)
Theorem generateSchema_fatal (p : Parrot) (rounds : nat) (d j : Z) (err : string) :
  1 <= j <= Z.of_nat rounds ->
  PartitionID p (candidateMetric p d j) = inr err ->
  (forall k, 1 <= k < j ->
     exists id, PartitionID p (candidateMetric p d k) = inl id /\ id <> d) ->
  generateSchema p rounds d = Fatal err.
Proof.
  intros Hj Hp Hbefore. unfold generateSchema.
  rewrite (generateSchemaLoop_first p d rounds _ 1 j) by (try lia; exact Hbefore).
  change (set_Name (candidateName d j) _) with (candidateMetric p d j).
  rewrite Hp. reflexivity.
Qed.

Lemma generateSchema_fatal_witness :
  generateSchema sumParrot 5 7 = Fatal "cannot hash".
Proof.
  apply (generateSchema_fatal sumParrot 5 7 4).
  - lia.
  - reflexivity.
  - intros k Hk.
    assert (Hcases : k = 1 \/ k = 2 \/ k = 3) by lia.
    destruct Hcases as [E|[E|E]]; subst k;
      eexists; (split; [reflexivity|vm_compute; lia]).
Defined.

Lemma generateSchemasLoop_Done (p : Parrot) (rounds : nat) (n : nat) :
  forall (i : Z) (metrics ms : list MetricData),
    generateSchemasLoop p rounds n i metrics = Done ms ->
    exists new,
      ms = metrics ++ new /\ length new = n /\
      forall (k : nat) (m : MetricData),
        new !! k = Some m -> generateSchema p rounds (i + Z.of_nat k) = Done m.
Proof.
  induction n as [|n IH]; intros i metrics ms H.
  - injection H as <-. exists []. rewrite app_nil_r.
    split; [reflexivity|]. split; [reflexivity|]. intros k m Hk. discriminate Hk.
  - cbn [generateSchemasLoop] in H.
    destruct (generateSchema p rounds i) as [m0| | |] eqn:E0; try discriminate.
    apply IH in H as (new & -> & Hlen & Hnew).
    exists (m0 :: new). rewrite <- app_assoc. split; [reflexivity|].
    split; [cbn; lia|]. intros [|k] m Hk.
    + injection Hk as <-. rewrite Z.add_0_r. exact E0.
    + cbn in Hk. apply Hnew in Hk.
      replace (i + Z.of_nat (S k)) with (i + 1 + Z.of_nat k) by lia. exact Hk.
Qed.

(** X23: when [generateSchemas] returns, it returns one metric for each
    of the partitions 0 .. numPartitions-1, in this order, the one at
    index [k] being what [generateSchema] returns for partition [k], so it
    hashes to partition [k]; for [numPartitions <= 0] the list is empty. *)
Theorem generateSchemas_Done (p : Parrot) (rounds : nat) (numPartitions : Z)
    (ms : list MetricData) :
  generateSchemas p rounds numPartitions = Done ms ->
  length ms = Z.to_nat numPartitions /\
  forall (k : nat) (m : MetricData),
    ms !! k = Some m ->
    generateSchema p rounds (Z.of_nat k) = Done m /\
    PartitionID p m = inl (Z.of_nat k).
Proof.
  unfold generateSchemas. intros H.
  apply generateSchemasLoop_Done in H as (new & -> & Hlen & Hnew).
  split; [exact Hlen|]. intros k m Hk. cbn in Hk.
  pose proof (Hnew k m Hk) as Hg. rewrite Z.add_0_l in Hg.
  split; [exact Hg|].
  unfold generateSchema in Hg.
  apply generateSchemaLoop_Done in Hg as (j & _ & _ & Hp & _); [exact Hp|lia].
Qed.

Lemma generateSchemas_Done_witness :
  length [candidateMetric sumParrot 0 2; candidateMetric sumParrot 1 2]
  = Z.to_nat 2 /\
  forall (k : nat) (m : MetricData),
    [candidateMetric sumParrot 0 2; candidateMetric sumParrot 1 2] !! k = Some m ->
    generateSchema sumParrot 5 (Z.of_nat k) = Done m /\
    PartitionID sumParrot m = inl (Z.of_nat k).
Proof. apply (generateSchemas_Done sumParrot 5 2). reflexivity. Defined.

(** ** The guards of the trusted read and the order of a read *)

(** X24: a trusted read whose range reaches past the last chunk, the
    aligned start of [to - 1] being after [lastStart], always panics,
    whichever of its guards fires first. *)
Theorem GetSafe_faults_past_lastStart (a : AggMetric) (from to : Z) :
  wf a -> is_u32 from -> is_u32 to ->
  lastStart a < (to - 1) - (to - 1) mod chunkSpan a ->
  exists f, GetSafe a from to = Fault f.
Proof.
  intros Hwf Hfrom Hto Hpast. unfold GetSafe.
  destruct (Z.leb_spec to from) as [Hge|Hlt]; [eexists; reflexivity|].
  assert (Hto1 : is_u32 (to - 1)) by (unfold is_u32 in *; lia).
  rewrite (wrap32_small (to - 1)) by exact Hto1.
  rewrite !alignedStart_wf by exact Hwf. go_step.
  pose proof Hwf as (Hspan & _).
  rewrite !aligned_u32 by assumption.
  destruct (from - from mod chunkSpan a <? oldestStart a); [eexists; reflexivity|].
  destruct (Z.ltb_spec (lastStart a) (to - 1 - (to - 1) mod chunkSpan a)) as [_|H2];
    [eexists; reflexivity|lia].
Qed.

Lemma GetSafe_faults_past_lastStart_witness :
  exists f, GetSafe wrappedStore 1000 1100 = Fault f.
Proof.
  apply (GetSafe_faults_past_lastStart wrappedStore 1000 1100 wrappedStore_wf).
  - apply u32_literal. reflexivity.
  - apply u32_literal. reflexivity.
  - reflexivity.
Defined.

(** X25: on a well-formed store [get] returns one iterator per non-empty
    slot, in ring order between the two slots that the code computes for
    the requested starts: [first..last], or [first..numChunks-1] followed
    by [0..last] when [last] is below [first]; both slots are below
    [numChunks], and for a requested start from [firstStart] on the slot
    is the one of the formula over the integers. *)
Theorem get_ring_order (a : AggMetric) (f l : Z) :
  wf a -> is_u32 f -> is_u32 l -> is_u32 (firstStart a) ->
  exists first last,
    slotOf a f = Ok first /\ slotOf a l = Ok last /\
    0 <= first < numChunks a /\ 0 <= last < numChunks a /\
    get a f l = Ok (slotIters a (ringSlots (numChunks a) first last)) /\
    (firstStart a <= f -> first = claimedSlot a f) /\
    (firstStart a <= l -> last = claimedSlot a l).
Proof.
  intros Hwf Hf Hl Hfs. exists (slotIndex a f), (slotIndex a l).
  split; [apply slotOf_wf, Hwf|]. split; [apply slotOf_wf, Hwf|].
  split; [apply slotIndex_bound, Hwf|]. split; [apply slotIndex_bound, Hwf|].
  split; [apply get_wf, Hwf|].
  unfold slotIndex, claimedSlot, is_u32 in *.
  split; intros Hle; rewrite wrap32_small; try reflexivity; unfold is_u32; lia.
Qed.

Lemma get_ring_order_witness :
  exists first last,
    slotOf wrappedStore 1200 = Ok first /\ slotOf wrappedStore 1560 = Ok last /\
    0 <= first < numChunks wrappedStore /\ 0 <= last < numChunks wrappedStore /\
    get wrappedStore 1200 1560
    = Ok (slotIters wrappedStore (ringSlots (numChunks wrappedStore) first last)) /\
    (firstStart wrappedStore <= 1200 -> first = claimedSlot wrappedStore 1200) /\
    (firstStart wrappedStore <= 1560 -> last = claimedSlot wrappedStore 1560).
Proof.
  apply (get_ring_order wrappedStore 1200 1560 wrappedStore_wf).
  - apply u32_literal. reflexivity.
  - apply u32_literal. reflexivity.
  - apply u32_literal. reflexivity.
Defined.
